(** * required-reviews: the policy evaluation of [src/main.ts]

    A shallow embedding of the functions of [src/main.ts] that decide whether
    a pull request has the reviews its [.github/reviewers.json] asks for:
    [getPossibleApprovers], [getApprovals], [check], [checkOverride] and the
    deciding part of [run].

    Conventions of the embedding.
    - A JavaScript string is a [string], one character per code unit;
      [startsWith] is [String.prefix].
    - [new Set(xs)] is a [gset string], [s.has(x)] is membership.
    - An object used only through [o[k]] (the [teams] roster) is a
      [gmap string _]; an object that is also enumerated with [for ... in]
      (the [reviewers] mapping, the local [reviewStatus]) is a [JsObject.t]:
      its own properties in enumeration order. Assigning a string to the
      key ["__proto__"] of an object literal stores nothing, and
      [JsObject.set] does the same.
    - A [throw] is the [Throw] constructor of [result]; the calls of
      [infoLog], [warnLog] and of the action toolkit are recorded, in order,
      in the [log] of an [Eff] computation.
    - [requiredApproverCount] is a JSON number; the embedding covers the
      integers ([Z]). The comparisons are those of the code for every
      integer; the numeral in the warning text is the one the code prints
      for integers that a double holds exactly and prints without an
      exponent (below [10^21] in absolute value). *)

From Stdlib Require Import ZArith Lia Ascii String.
From stdpp Require Import base option list strings gmap sets pretty.

Local Open Scope Z_scope.

(** ** Exceptions and effects *)

(** The two exceptions the evaluated code can raise: reading a property of
    [undefined] (or spreading [undefined]) and compiling a malformed regular
    expression. *)
Inductive exn : Set :=
  | TypeError
  | SyntaxError.

Inductive result (A : Type) : Type :=
  | Return (a : A)
  | Throw (e : exn).
Arguments Return {A} a.
Arguments Throw {A} e.

Global Instance result_ret : MRet result := @Return.
Global Instance result_bind : MBind result := λ A B f m,
  match m with
  | Return a => f a
  | Throw e => Throw e
  end.

(** What the action does to the outside world. *)
Inductive effect : Set :=
  | core_info (message : string)
  | core_warning (message : string)
  | core_setFailed (message : string)
  | createReview (event body : string).

(** A computation that logs and may throw: what was emitted before the
    computation ended, and how it ended. *)
Record Eff (A : Type) : Type := mkEff { log : list effect; value : result A }.
Arguments mkEff {A} log value.
Arguments log {A} e.
Arguments value {A} e.

Global Instance Eff_ret : MRet Eff := λ A a, mkEff [] (Return a).
Global Instance Eff_bind : MBind Eff := λ A B f m,
  match value m with
  | Return a => mkEff (log m ++ log (f a)) (value (f a))
  | Throw e => mkEff (log m) (Throw e)
  end.

Definition emit (e : effect) : Eff unit := mkEff [e] (Return tt).
Definition lift {A} (r : result A) : Eff A := mkEff [] r.

(** ** JavaScript arrays and objects *)

(** [Array.prototype.every] and [Array.prototype.some] with a callback that
    may throw: both stop at the first element that settles the answer, and a
    throwing callback ends the iteration. *)
Fixpoint every {A} (f : A → result bool) (l : list A) : result bool :=
  match l with
  | [] => Return true
  | x :: l' => b ← f x; if b : bool then every f l' else Return false
  end.

Fixpoint some {A} (f : A → result bool) (l : list A) : result bool :=
  match l with
  | [] => Return false
  | x :: l' => b ← f x; if b : bool then Return true else some f l'
  end.

(** [Array.prototype.map] with a throwing callback. *)
Fixpoint map_throwing {A B} (f : A → result B) (l : list A) : result (list B) :=
  match l with
  | [] => Return []
  | x :: l' => y ← f x; ys ← map_throwing f l'; Return (y :: ys)
  end.

(** [Array.prototype.join]; an array coerced to a string is joined with
    [","]. *)
Definition join (sep : string) (l : list string) : string := String.concat sep l.
Definition Array_toString (l : list string) : string := join "," l.

Definition startsWith (s searchString : string) : bool := String.prefix searchString s.

Definition nl : string := String "010"%char "".

Module JsObject.

(** The own enumerable string-keyed properties of an ordinary object, in
    the order [for ... in] visits them. *)
Definition t (V : Type) : Type := list (string * V).

Definition keys {V} (o : t V) : list string := o.*1.

(** [o[k]] *)
Fixpoint get {V} (k : string) (o : t V) : option V :=
  match o with
  | [] => None
  | (k', v) :: o' => if decide (k' = k) then Some v else get k o'
  end.

Definition digit (a : ascii) : option N :=
  let n := N_of_ascii a in
  if ((48 <=? n) && (n <=? 57))%N then Some (n - 48)%N else None.

Fixpoint digits (s : string) (acc : N) : option N :=
  match s with
  | EmptyString => Some acc
  | String a s' => d ← digit a; digits s' (10 * acc + d)%N
  end.

(** An array index is a canonical numeric string below [2^32 - 1]; such
    keys are enumerated first, in ascending numeric order. *)
Definition array_index (k : string) : option N :=
  match k with
  | EmptyString => None
  | String a s' =>
      if decide (a = "0"%char) then (if decide (s' = EmptyString) then Some 0%N else None)
      else n ← digits k 0; if (n <? 2 ^ 32 - 1)%N then Some n else None
  end.

(** Where a property that does not exist yet is created: an array index
    goes before the first property that is not a smaller array index,
    every other key goes last. *)
Fixpoint create_index {V} (n : N) (k : string) (v : V) (o : t V) : t V :=
  match o with
  | [] => [(k, v)]
  | (k', v') :: o' =>
      match array_index k' with
      | Some n' => if (n' <? n)%N then (k', v') :: create_index n k v o' else (k, v) :: o
      | None => (k, v) :: o
      end
  end.

Definition create {V} (k : string) (v : V) (o : t V) : t V :=
  match array_index k with
  | Some n => create_index n k v o
  | None => o ++ [(k, v)]
  end.

Fixpoint overwrite {V} (k : string) (v : V) (o : t V) : t V :=
  match o with
  | [] => []
  | (k', v') :: o' => if decide (k' = k) then (k', v) :: o' else (k', v') :: overwrite k v o'
  end.

(** [o[k] = v], for an object written as a literal and a value [v] that is
    not itself an object: an existing property keeps its place, and the key
    ["__proto__"] reaches the setter that [Object.prototype] provides, which
    ignores such a value and stores nothing. *)
Definition set {V} (k : string) (v : V) (o : t V) : t V :=
  if decide (k = "__proto__"%string) then o
  else
    match get k o with
    | Some _ => overwrite k v o
    | None => create k v o
    end.

End JsObject.

(** [for (const k in o) body], with the loop's mutable variable threaded
    through the iterations. *)
Fixpoint for_in {S} (keys : list string) (body : S → string → Eff S) (s : S) : Eff S :=
  match keys with
  | [] => mret s
  | k :: keys' => s' ← body s k; for_in keys' body s'
  end.

(** ** The configuration file, [.github/reviewers.json] *)

Module TeamConfiguration.
Record t : Type := mk {
  description : option string;
  users : list string;
}.
End TeamConfiguration.

Module ReviewerConfiguration.
Record t : Type := mk {
  description : option string;
  teams : option (list string);
  users : option (list string);
  requiredApproverCount : Z;
}.
End ReviewerConfiguration.

Module OverrideCriteria.
Record t : Type := mk {
  description : option string;
  onlyModifiedByUsers : option (list string);
  onlyModifiedFileRegExs : option (list string);
}.
End OverrideCriteria.

Module Reviewers.
Record t : Type := mk {
  (* a map of team name to team members *)
  teams : option (gmap string TeamConfiguration.t);
  (* a map of path prefix to review requirements *)
  reviewers : JsObject.t ReviewerConfiguration.t;
  (* criteria that will overrule review requirements *)
  overrides : option (list OverrideCriteria.t);
}.
End Reviewers.

(** ** What the GitHub API returns: the reviews of a pull request *)

Module User.
Record t : Type := mk { login : string }.
End User.

Global Instance User_eq_dec : EqDecision User.t.
Proof. solve_decision. Defined.

Module Review.
Record t : Type := mk {
  user : option User.t;
  state : string;
}.
End Review.

(** ** [getPossibleApprovers] *)

(** [teams[team].users]: a team that is not in the roster makes the property
    read throw. (A name that only [Object.prototype] knows, such as
    ["constructor"], yields [undefined] instead, which the spread in the
    reducer then refuses with the same exception.) *)
Definition team_users (teams : gmap string TeamConfiguration.t) (team : string)
  : result (list string) :=
  match teams !! team with
  | Some conf => Return (TeamConfiguration.users conf)
  | None => Throw TypeError
  end.

Definition getPossibleApprovers (conf : ReviewerConfiguration.t)
    (teams : gmap string TeamConfiguration.t) : result (gset string) :=
  let namedUsers := default [] (ReviewerConfiguration.users conf) in
  usersOfTeams ← map_throwing (team_users teams) (default [] (ReviewerConfiguration.teams conf));
  let usersFromAllNamedTeams := foldl (λ left right, left ++ right) [] usersOfTeams in
  Return (list_to_set (namedUsers ++ usersFromAllNamedTeams)).

(** ** [getApprovals]

    The part after the reviews have been fetched; the [core.info] of the raw
    payload is left out. *)

Definition record_review (reviewStatus : JsObject.t string) (review : Review.t)
  : JsObject.t string :=
  match Review.user review with
  | Some user =>
      (* COMMENTED reviews do not affect the approval state *)
      if decide (Review.state review ≠ "COMMENTED"%string)
      then JsObject.set (User.login user) (Review.state review) reviewStatus
      else reviewStatus
  | None => reviewStatus
  end.

Definition getApprovals (prReviews : list Review.t) : list string :=
  (* The reviews are in chronological order so we just need to use the latest state *)
  let reviewStatus := foldl record_review [] prReviews in
  filter (λ login, JsObject.get login reviewStatus = Some "APPROVED"%string)
         (JsObject.keys reviewStatus).

(** ** [check] *)

Definition bullet (s : string) : string := " - " +:+ s +:+ nl.

(** The text of the warning. [pretty] writes [requiredApproverCount] as the
    template literal does for an integer below [10^21] in absolute value
    that a double holds exactly; from [10^21] on the code prints an exponent
    ([1e+21]), which this text does not follow. *)
Definition warning_text (affectedFiles : list string)
    (reviewRequirements : ReviewerConfiguration.t)
    (count : nat) (relevantApprovals : list string) : string :=
  "Modified Files:" +:+ nl +:+
  Array_toString (bullet <$> affectedFiles) +:+
  "Require " +:+ pretty (ReviewerConfiguration.requiredApproverCount reviewRequirements) +:+
  " reviews from:" +:+ nl +:+
  "  users:" +:+
  match ReviewerConfiguration.users reviewRequirements with
  | Some users => nl +:+ Array_toString (bullet <$> users)
  | None => " []" +:+ nl
  end +:+
  "  teams:" +:+
  match ReviewerConfiguration.teams reviewRequirements with
  | Some teams => nl +:+ Array_toString (bullet <$> teams)
  | None => " []" +:+ nl
  end +:+
  "But only found " +:+ pretty count +:+ " approvals: " +:+
  "[" +:+ join ", " relevantApprovals +:+ "].".

Section check.

Context (reviewersConfig : Reviewers.t) (modifiedFilepaths approvals : list string).
Context (infoLog warnLog : string → effect).

(** One iteration of the loop over the path prefixes. [prefix] is a key of
    the mapping, so the rule is there; were it not, reading [conf.users] in
    [getPossibleApprovers] would throw, which is how the lookup is written. *)
Definition check_rule (approved : bool) (prefix : string) : Eff bool :=
  (* find files that match the rule *)
  let affectedFiles := filter (λ file, startsWith file prefix = true) modifiedFilepaths in
  if (0 <? length affectedFiles)%nat then
    (* evaluate rule *)
    reviewRequirements ←
      lift (from_option Return (Throw TypeError)
              (JsObject.get prefix (Reviewers.reviewers reviewersConfig)));
    possibleApprovers ←
      lift (getPossibleApprovers reviewRequirements
              (default ∅ (Reviewers.teams reviewersConfig)));
    let relevantApprovals := filter (λ user, user ∈ possibleApprovers) approvals in
    let count := length relevantApprovals in
    if Z.of_nat count <? ReviewerConfiguration.requiredApproverCount reviewRequirements then
      emit (warnLog (warning_text affectedFiles reviewRequirements count relevantApprovals));;
      mret false
    else
      emit (infoLog (prefix +:+ " review requirements met."));;
      mret approved
  else mret approved.

Definition check : Eff bool :=
  for_in (JsObject.keys (Reviewers.reviewers reviewersConfig)) check_rule true.

End check.

(** ** [checkOverride] *)

Section checkOverride.

(** The regular-expression engine: [RegExp pattern] is the matcher that
    [new RegExp(pattern)] builds ([.test] applied to a string), or [None]
    when the constructor rejects the pattern with a [SyntaxError]. *)
Context (RegExp : string → option (string → bool)).

Definition RegExp_test (pattern s : string) : result bool :=
  match RegExp pattern with
  | Some test => Return (test s)
  | None => Throw SyntaxError
  end.

Definition committer_allowed (testSet : gset string) (user : option string) : bool :=
  match user with
  | Some user => bool_decide (user ∈ testSet)
  | None => false
  end.

(** The callback of [overrides.some]. *)
Definition criteria_satisfied (modifiedFilePaths : list string)
    (modifiedByUsers : list (option string)) (crit : OverrideCriteria.t) : result bool :=
  let maybe := true in
  let maybe :=
    match OverrideCriteria.onlyModifiedByUsers crit with
    | Some users =>
        let testSet : gset string := list_to_set users in
        maybe && forallb (committer_allowed testSet) modifiedByUsers
    | None => maybe
    end in
  match OverrideCriteria.onlyModifiedFileRegExs crit with
  | Some patterns =>
      if maybe
      then every (λ modifiedFile, some (λ pattern, RegExp_test pattern modifiedFile) patterns)
                 modifiedFilePaths
      else Return false
  | None => Return maybe
  end.

(** returns true if at least one OverrideCriteria is satisfied. *)
Definition checkOverride (overrides : list OverrideCriteria.t)
    (modifiedFilePaths : list string) (modifiedByUsers : list (option string))
  : result bool :=
  some (criteria_satisfied modifiedFilePaths modifiedByUsers) overrides.

(** ** [run]

    The part of [run] inside [try], from the call of [check] on, given
    what [loadConfig], [getModifiedFilepaths], [getApprovals] and
    [getCommiters] returned. The value tells which way [run] ends: [true]
    when it reaches [// pass], [false] when it returns from the
    missing-approvals branch; a [Throw] is what the [catch] reports
    with [core.setFailed]. *)
Definition pass (postReview : bool) : Eff bool :=
  emit (core_info "required-reviews.run.7");;
  (if postReview
   then emit (createReview "APPROVE" "All review requirements have been met")
   else mret tt);;
  emit (core_info "required-reviews.run.8");;
  emit (core_info "All review requirements have been met");;
  mret true.

Definition run (postReview : bool) (reviewersConfig : Reviewers.t)
    (modifiedFilepaths approvals : list string) (committers : list (option string))
  : Eff bool :=
  approved ← check reviewersConfig modifiedFilepaths approvals core_info core_warning;
  emit (core_info "required-reviews.run.6");;
  if negb approved then
    override ←
      match Reviewers.overrides reviewersConfig with
      | Some overrides => lift (checkOverride overrides modifiedFilepaths committers)
      | None => mret false
      end;
    if negb override then
      (if postReview
       then emit (createReview "REQUEST_CHANGES" "Missing required reviewers")
       else emit (core_setFailed "Missing required approvals."));;
      mret false
    else
      (* drop through *)
      emit (core_info "Missing required approvals but allowing due to override.");;
      pass postReview
  else pass postReview.

End checkOverride.

(** ** What else the GitHub API returns: the files and commits of a pull request

    [getModifiedFilepaths] and [getCommiters] after their one request has
    been answered: what they make of the response data. *)

Module File.
Record t : Type := mk { filename : string }.
End File.

Module Commit.
Record t : Type := mk {
  (* the GitHub account of the committer, [null] when none is known *)
  committer : option User.t;
}.
End Commit.

Definition getModifiedFilepaths (allPrFiles : list File.t) : list string :=
  File.filename <$> allPrFiles.

(** [commit.committer?.login] *)
Definition getCommiters (commits : list Commit.t) : list (option string) :=
  (λ commit, User.login <$> Commit.committer commit) <$> commits.

(** ** The vocabulary of the specification *)

(** [prefix] is a literal string prefix of at least one modified file. *)
Definition matches_some_file (prefix : string) (modifiedFilepaths : list string) : Prop :=
  ∃ file rest, file ∈ modifiedFilepaths ∧ file = prefix +:+ rest.

(** How many of the approvals belong to an approver set. *)
Definition relevant_count (possibleApprovers : gset string) (approvals : list string) : nat :=
  length (filter (λ user, user ∈ possibleApprovers) approvals).

(** The rule's approver set resolves, and enough approvals belong to it. *)
Definition rule_met (teams : gmap string TeamConfiguration.t) (approvals : list string)
    (conf : ReviewerConfiguration.t) : Prop :=
  ∃ possibleApprovers,
    getPossibleApprovers conf teams = Return possibleApprovers ∧
    ReviewerConfiguration.requiredApproverCount conf
      ≤ Z.of_nat (relevant_count possibleApprovers approvals).

(** Every team the rule names is in the roster. *)
Definition teams_exist (teams : gmap string TeamConfiguration.t)
    (conf : ReviewerConfiguration.t) : Prop :=
  ∀ team, team ∈ default [] (ReviewerConfiguration.teams conf) → is_Some (teams !! team).

(** [user] is a named user of the rule or a member of one of its teams. *)
Definition may_approve (teams : gmap string TeamConfiguration.t)
    (conf : ReviewerConfiguration.t) (user : string) : Prop :=
  user ∈ default [] (ReviewerConfiguration.users conf) ∨
  ∃ team members,
    team ∈ default [] (ReviewerConfiguration.teams conf) ∧
    teams !! team = Some members ∧
    user ∈ TeamConfiguration.users members.

(** A review that counts for [login]: theirs, and not a comment. *)
Definition significant (login : string) (review : Review.t) : Prop :=
  Review.user review = Some (User.mk login) ∧ Review.state review ≠ "COMMENTED"%string.

Global Instance significant_dec login review : Decision (significant login review).
Proof. unfold significant. apply _. Defined.

(** The state of the most recent review of [login] that is not a comment. *)
Definition latest_state (login : string) (prReviews : list Review.t) : option string :=
  Review.state <$> last (filter (significant login) prReviews).

(** The [onlyModifiedByUsers] clause: absent, or every committer is defined
    and allowed. *)
Definition users_clause (crit : OverrideCriteria.t) (committers : list (option string)) : Prop :=
  ∀ allowed, OverrideCriteria.onlyModifiedByUsers crit = Some allowed →
    ∀ committer, committer ∈ committers → ∃ user, committer = Some user ∧ user ∈ allowed.

(** The [onlyModifiedFileRegExs] clause: absent, or every modified file is
    matched by one of the patterns. *)
Definition files_clause (RegExp : string → option (string → bool))
    (crit : OverrideCriteria.t) (modifiedFilePaths : list string) : Prop :=
  ∀ patterns, OverrideCriteria.onlyModifiedFileRegExs crit = Some patterns →
    ∀ file, file ∈ modifiedFilePaths →
      ∃ pattern test, pattern ∈ patterns ∧ RegExp pattern = Some test ∧ test file = true.

(** Every pattern of every entry is a regular expression the engine accepts. *)
Definition patterns_compile (RegExp : string → option (string → bool))
    (overrides : list OverrideCriteria.t) : Prop :=
  ∀ crit patterns pattern,
    crit ∈ overrides →
    OverrideCriteria.onlyModifiedFileRegExs crit = Some patterns →
    pattern ∈ patterns →
    is_Some (RegExp pattern).

(** A regular-expression engine for examples: every pattern but ["("] is
    read as a literal that has to start the string. *)
Definition anchored_literal (pattern : string) : option (string → bool) :=
  if decide (pattern = "("%string) then None else Some (λ s, startsWith s pattern).

(** ** Example policies and changes *)

Module Scenario.

(** Scenario A: one rule for ["src/"], one approval of two named users. *)
Definition src_rule : ReviewerConfiguration.t :=
  ReviewerConfiguration.mk None None (Some ["alice"; "bob"]%string) 1.
Definition policyA : Reviewers.t :=
  Reviewers.mk None [("src/"%string, src_rule)] None.

(** Scenario E: a rule for ["docs/"] that names a team the roster lacks. *)
Definition docs_rule : ReviewerConfiguration.t :=
  ReviewerConfiguration.mk None (Some ["core-team"]%string) None 1.
Definition policyE : Reviewers.t :=
  Reviewers.mk None [("docs/"%string, docs_rule)] None.

(** A roster with overlapping teams, and a rule that names both and
    repeats a user. *)
Definition roster : gmap string TeamConfiguration.t :=
  {[ "core"%string := TeamConfiguration.mk None ["alice"; "bob"]%string;
     "ops"%string := TeamConfiguration.mk None ["bob"; "carol"]%string ]}.
Definition both_teams_rule : ReviewerConfiguration.t :=
  ReviewerConfiguration.mk None (Some ["core"; "ops"]%string)
    (Some ["dave"; "alice"; "dave"]%string) 2.

(** A rule that asks for no approval at all, next to Scenario A's rule. *)
Definition free_rule : ReviewerConfiguration.t :=
  ReviewerConfiguration.mk None None None 0.
Definition policy_free : Reviewers.t :=
  Reviewers.mk None [("docs/"%string, free_rule); ("src/"%string, src_rule)] None.

End Scenario.

Module Override.

(** Scenario C: commits by ["bot"] alone waive the requirements. *)
Definition bot_only : OverrideCriteria.t :=
  OverrideCriteria.mk None (Some ["bot"]%string) None.
Definition policyC : Reviewers.t :=
  Reviewers.mk None [("src/"%string, Scenario.src_rule)] (Some [bot_only]).

(** Scenario D: changes under ["docs/"] alone waive the requirements. *)
Definition docs_only : OverrideCriteria.t :=
  OverrideCriteria.mk None None (Some ["docs/"]%string).

End Override.

Module Sample.

(** A general rule and a more specific one under it. *)
Definition policy_nested : Reviewers.t :=
  Reviewers.mk None
    [("src/"%string, Scenario.src_rule);
     ("src/core/"%string,
      ReviewerConfiguration.mk None None (Some ["carol"]%string) 1)]
    None.

(** A rule that asks for more approvals than it has approvers. *)
Definition greedy_rule : ReviewerConfiguration.t :=
  ReviewerConfiguration.mk None None (Some ["alice"; "bob"]%string) 3.
Definition policy_greedy : Reviewers.t :=
  Reviewers.mk None [("src/"%string, greedy_rule)] None.

(** A rule over the team ["core"], with and without the rest of the roster. *)
Definition core_rule : ReviewerConfiguration.t :=
  ReviewerConfiguration.mk None (Some ["core"]%string) None 1.
Definition core_roster : gmap string TeamConfiguration.t :=
  {[ "core"%string := TeamConfiguration.mk None ["alice"; "bob"]%string ]}.
Definition policy_core (roster : gmap string TeamConfiguration.t) : Reviewers.t :=
  Reviewers.mk (Some roster) [("src/"%string, core_rule)] None.

(** A rule that asks for no approval and names a team the roster lacks. *)
Definition ghost_rule : ReviewerConfiguration.t :=
  ReviewerConfiguration.mk None (Some ["ghost"]%string) None 0.
Definition policy_ghost : Reviewers.t :=
  Reviewers.mk None [("src/"%string, ghost_rule)] None.

(** An entry without any clause, and one with a pattern the example engine
    rejects. *)
Definition wildcard : OverrideCriteria.t := OverrideCriteria.mk None None None.
Definition malformed : OverrideCriteria.t :=
  OverrideCriteria.mk None None (Some ["("]%string).

End Sample.

(** ** What to look for in a log *)

(** The reviews that were posted, as (event, body). *)
Definition reviews_posted (l : list effect) : list (string * string) :=
  omap (λ e, match e with createReview event body => Some (event, body) | _ => None end) l.

(** The messages the action was failed with. *)
Definition failures_reported (l : list effect) : list string :=
  omap (λ e, match e with core_setFailed message => Some message | _ => None end) l.

(** * Properties *)

(** ** Strings *)

Lemma append_String (a : ascii) (s1 s2 : string) :
  String a s1 +:+ s2 = String a (s1 +:+ s2).
Proof. reflexivity. Qed.

Lemma startsWith_spec (s p : string) :
  startsWith s p = true ↔ ∃ rest, s = p +:+ rest.
Proof.
  unfold startsWith. revert s. induction p as [|a p IH]; intros s; simpl.
  - destruct s; split; eauto.
  - destruct s as [|b s]; simpl.
    + split; [done | by intros [rest ?]].
    + destruct (Ascii.ascii_dec a b) as [->|Hne].
      * rewrite IH. split; intros [rest Hrest]; exists rest;
          rewrite append_String in *; congruence.
      * split; [done | intros [rest Hrest]; rewrite append_String in Hrest; congruence].
Qed.

Example startsWith_is_literal :
  startsWith "docs/readme.md" "docs/" = true
  ∧ startsWith "docs/readme.md" "doc" = true
  ∧ startsWith "docs/readme.md" "docu" = false
  ∧ startsWith "src/foo" "src/f" = true.
Proof. by split_and!. Qed.

Lemma filter_startsWith_nonempty (prefix : string) (files : list string) :
  (0 <? length (filter (λ file, startsWith file prefix = true) files))%nat = true
  ↔ matches_some_file prefix files.
Proof.
  rewrite Nat.ltb_lt. unfold matches_some_file. split.
  - intros Hlen.
    destruct (filter _ files) as [|file l] eqn:Hf; [simpl in Hlen; lia |].
    assert (file ∈ filter (λ file, startsWith file prefix = true) files) as Hin
      by (rewrite Hf; left).
    apply list_elem_of_filter in Hin as [Hsw Hin].
    apply startsWith_spec in Hsw as [rest ->]. eauto.
  - intros (file & rest & Hin & ->).
    assert (prefix +:+ rest ∈ filter (λ file, startsWith file prefix = true) files) as Hf.
    { apply list_elem_of_filter. split; [apply startsWith_spec; eauto | done]. }
    destruct (filter _ files); [by apply elem_of_nil in Hf | simpl; lia].
Qed.

(** ** Computations *)

Lemma value_bind {A B} (m : Eff A) (f : A → Eff B) :
  value (m ≫= f) = value m ≫= (λ a, value (f a)).
Proof. unfold mbind, Eff_bind, result_bind. by destruct (value m). Qed.

Lemma value_lift {A} (r : result A) : value (lift r) = r.
Proof. reflexivity. Qed.

Lemma result_bind_Return {A B} (m : result A) (f : A → result B) (b : B) :
  m ≫= f = Return b ↔ ∃ a, m = Return a ∧ f a = Return b.
Proof.
  destruct m as [a|e]; simpl; split.
  - eauto.
  - by intros (a' & [= <-] & ?).
  - done.
  - by intros (a' & ? & ?).
Qed.

(** ** [getPossibleApprovers] *)

Section getPossibleApprovers.

Context (teams : gmap string TeamConfiguration.t).

Lemma map_throwing_team_users_Return (names : list string) (lists : list (list string)) :
  map_throwing (team_users teams) names = Return lists →
  (∀ team, team ∈ names → is_Some (teams !! team)) ∧
  ∀ user, user ∈ foldl (λ left right, left ++ right) [] lists ↔
    ∃ team members, team ∈ names ∧ teams !! team = Some members ∧
                    user ∈ TeamConfiguration.users members.
Proof.
  assert (∀ (lists : list (list string)) (acc : list string) user,
    user ∈ foldl (λ left right, left ++ right) acc lists ↔
    user ∈ acc ∨ ∃ l, l ∈ lists ∧ user ∈ l) as Hfold.
  { clear. intros lists. induction lists as [|l lists IH]; intros acc user; simpl.
    - split; [auto | intros [?|(l & Hl & _)]; [done | by apply elem_of_nil in Hl]].
    - rewrite IH, elem_of_app. split.
      + intros [[?|?]|(l' & ? & ?)]; eauto using list_elem_of_here, list_elem_of_further.
      + intros [?|(l' & [->|?]%elem_of_cons & ?)]; eauto. }
  revert lists. induction names as [|name names IH]; intros lists; simpl.
  - intros [= <-]. split.
    + intros team Hin. by apply elem_of_nil in Hin.
    + intros user. simpl. split; [by intros ?%elem_of_nil |].
      intros (team & ? & Hin & _). by apply elem_of_nil in Hin.
  - destruct (team_users teams name) as [users|] eqn:Hname; simpl; [|done].
    destruct (map_throwing (team_users teams) names) as [lists'|] eqn:Hrec; simpl; [|done].
    intros [= <-]. unfold team_users in Hname.
    destruct (teams !! name) as [members|] eqn:Hlook; [|done].
    injection Hname as <-. destruct (IH lists' eq_refl) as [Hex Hmem]. split.
    + intros team [->|?]%elem_of_cons; eauto.
    + intros user. rewrite Hfold. setoid_rewrite Hfold in Hmem. split.
      * intros [Hnil|(l & [->|Hl]%elem_of_cons & Hu)].
        -- by apply elem_of_nil in Hnil.
        -- exists name, members. split_and!; [left | done | done].
        -- destruct (proj1 (Hmem user)) as (team & members' & ? & ? & ?); [eauto |].
           exists team, members'. split_and!; [by right | done | done].
      * intros (team & members' & [->|Hin]%elem_of_cons & Hlook' & Hu).
        -- right. exists (TeamConfiguration.users members). split; [left | congruence].
        -- destruct (proj2 (Hmem user)) as [Hnil|(l & ? & ?)];
             [eauto | by apply elem_of_nil in Hnil |].
           right. exists l. split; [by right | done].
Qed.

Lemma map_throwing_team_users_Throw (names : list string) (e : exn) :
  map_throwing (team_users teams) names = Throw e →
  e = TypeError ∧ ∃ team, team ∈ names ∧ teams !! team = None.
Proof.
  induction names as [|name names IH]; simpl; [done |].
  destruct (team_users teams name) as [users|e'] eqn:Hname; simpl.
  - destruct (map_throwing (team_users teams) names) as [lists'|e''] eqn:Hrec; simpl; [done |].
    intros [= <-]. destruct (IH eq_refl) as [-> (team & ? & ?)].
    split; [done |]. exists team. split; [by right | done].
  - intros [= <-]. unfold team_users in Hname.
    destruct (teams !! name) as [members|] eqn:Hlook; [done |].
    injection Hname as <-. split; [done |]. exists name. split; [left | done].
Qed.

(** What [getPossibleApprovers] does, in both of its outcomes. *)
Lemma getPossibleApprovers_spec (conf : ReviewerConfiguration.t) :
  match getPossibleApprovers conf teams with
  | Return possibleApprovers =>
      teams_exist teams conf ∧
      ∀ user, user ∈ possibleApprovers ↔ may_approve teams conf user
  | Throw e =>
      e = TypeError ∧
      ∃ team, team ∈ default [] (ReviewerConfiguration.teams conf) ∧ teams !! team = None
  end.
Proof.
  unfold getPossibleApprovers, teams_exist, may_approve.
  destruct (map_throwing _ _) as [lists|e] eqn:Hmap; simpl.
  - apply map_throwing_team_users_Return in Hmap as [Hex Hmem]. split; [done |].
    intros user. rewrite elem_of_list_to_set, elem_of_app, Hmem. done.
  - by apply map_throwing_team_users_Throw in Hmap.
Qed.

Lemma getPossibleApprovers_Return (conf : ReviewerConfiguration.t) :
  teams_exist teams conf →
  ∃ possibleApprovers, getPossibleApprovers conf teams = Return possibleApprovers.
Proof.
  intros Hex. pose proof (getPossibleApprovers_spec conf) as Hspec.
  destruct (getPossibleApprovers conf teams) as [possible|e]; [eauto |].
  destruct Hspec as [_ (team & Hin & Hnone)].
  destruct (Hex team Hin) as [members Hsome]. congruence.
Qed.

Lemma getPossibleApprovers_missing_team (conf : ReviewerConfiguration.t) (team : string) :
  team ∈ default [] (ReviewerConfiguration.teams conf) →
  teams !! team = None →
  getPossibleApprovers conf teams = Throw TypeError.
Proof.
  intros Hin Hnone. pose proof (getPossibleApprovers_spec conf) as Hspec.
  destruct (getPossibleApprovers conf teams) as [possible|e].
  - destruct Hspec as [Hex _]. destruct (Hex team Hin) as [members Hsome]. congruence.
  - by destruct Hspec as [-> _].
Qed.

End getPossibleApprovers.

(** ** Objects *)

Lemma JsObject_elem_of_keys {V} (k : string) (o : JsObject.t V) :
  k ∈ JsObject.keys o ↔ is_Some (JsObject.get k o).
Proof.
  unfold JsObject.keys. induction o as [|[k' v] o IH]; simpl.
  - split; [by intros ?%elem_of_nil | by intros [? ?]].
  - rewrite elem_of_cons, IH. destruct (decide (k' = k)) as [->|Hne].
    + split; eauto.
    + split; [intros [?|?]; [congruence | done] | auto].
Qed.

(** ** [check] *)

Section check_rules.

Context (reviewersConfig : Reviewers.t) (modifiedFilepaths approvals : list string).
Context (infoLog warnLog : string → effect).

Local Abbreviation reviewers := (Reviewers.reviewers reviewersConfig).
Local Abbreviation teams := (default ∅ (Reviewers.teams reviewersConfig)).
Local Abbreviation rule := (check_rule reviewersConfig modifiedFilepaths approvals infoLog warnLog).

(** How an iteration ends, without its log. *)
Lemma check_rule_value (approved : bool) (prefix : string) :
  value (rule approved prefix) =
    if (0 <? length (filter (λ file, startsWith file prefix = true) modifiedFilepaths))%nat
    then
      conf ← from_option Return (Throw TypeError) (JsObject.get prefix reviewers);
      possibleApprovers ← getPossibleApprovers conf teams;
      Return (if Z.of_nat (relevant_count possibleApprovers approvals)
                   <? ReviewerConfiguration.requiredApproverCount conf
              then false else approved)
    else Return approved.
Proof.
  unfold check_rule, relevant_count.
  destruct (0 <? _)%nat; [|done].
  destruct (JsObject.get prefix _) as [conf|]; simpl; [|done].
  unfold mbind, Eff_bind, result_bind. simpl.
  destruct (getPossibleApprovers _ _) as [possible|e]; simpl; [|done].
  by destruct (_ <? _).
Qed.

Lemma check_rule_unmatched (approved : bool) (prefix : string) :
  ¬ matches_some_file prefix modifiedFilepaths →
  rule approved prefix = mret approved.
Proof.
  intros Hno. unfold check_rule.
  destruct (0 <? _)%nat eqn:Hlen; [|done].
  by apply filter_startsWith_nonempty in Hlen.
Qed.

Lemma check_rule_Throw (approved : bool) (prefix : string) (e : exn) :
  value (rule approved prefix) = Throw e → e = TypeError.
Proof.
  rewrite check_rule_value. destruct (0 <? _)%nat; [|done].
  destruct (JsObject.get prefix reviewers) as [conf|]; simpl; [|congruence].
  pose proof (getPossibleApprovers_spec teams conf) as Hspec.
  destruct (getPossibleApprovers conf teams) as [possible|e']; simpl; [done |].
  destruct Hspec as [-> _]. congruence.
Qed.

(** The flag only ever goes from [true] to [false]. *)
Lemma check_rule_flag (approved : bool) (prefix : string) :
  value (rule approved prefix) = b ← value (rule true prefix); Return (approved && b).
Proof.
  rewrite !check_rule_value. destruct (0 <? _)%nat; simpl.
  - destruct (JsObject.get prefix _) as [conf|]; simpl; [|done].
    destruct (getPossibleApprovers _ _) as [possible|e]; simpl; [|done].
    destruct (_ <? _); by destruct approved.
  - by destruct approved.
Qed.

Lemma check_rule_passes (prefix : string) (conf : ReviewerConfiguration.t) :
  JsObject.get prefix reviewers = Some conf →
  value (rule true prefix) = Return true
  ↔ (matches_some_file prefix modifiedFilepaths → rule_met teams approvals conf).
Proof.
  intros Hget. rewrite check_rule_value, Hget. simpl. unfold rule_met.
  destruct (0 <? _)%nat eqn:Hlen.
  - apply filter_startsWith_nonempty in Hlen.
    destruct (getPossibleApprovers conf teams) as [possible|e]; simpl.
    + destruct (_ <? _) eqn:Hlt.
      * apply Z.ltb_lt in Hlt. split; [done |].
        intros Hmet. destruct (Hmet Hlen) as (possible' & [= <-] & Hle). lia.
      * apply Z.ltb_ge in Hlt. split; [eauto | done].
    + split; [done |]. intros Hmet. by destruct (Hmet Hlen) as (possible' & ? & _).
  - split; [|done]. intros _ Hmatch.
    apply filter_startsWith_nonempty in Hmatch. congruence.
Qed.

Lemma check_rule_fails (prefix : string) :
  value (rule true prefix) = Return false →
  matches_some_file prefix modifiedFilepaths ∧
  ∃ conf possibleApprovers,
    JsObject.get prefix reviewers = Some conf ∧
    getPossibleApprovers conf teams = Return possibleApprovers ∧
    Z.of_nat (relevant_count possibleApprovers approvals)
      < ReviewerConfiguration.requiredApproverCount conf.
Proof.
  rewrite check_rule_value. destruct (0 <? _)%nat eqn:Hlen; [|done].
  apply filter_startsWith_nonempty in Hlen. split; [done |].
  destruct (JsObject.get prefix reviewers) as [conf|]; simpl in *; [|done].
  destruct (getPossibleApprovers conf teams) as [possible|e] eqn:Hres; simpl in *; [|done].
  destruct (_ <? _) eqn:Hlt; [|done].
  apply Z.ltb_lt in Hlt. eauto.
Qed.

(** The loop, by induction on the keys still to visit. *)
Lemma for_in_rules_true (keys : list string) (approved : bool) :
  value (for_in keys rule approved) = Return true
  ↔ approved = true ∧ ∀ prefix, prefix ∈ keys → value (rule true prefix) = Return true.
Proof.
  revert approved. induction keys as [|k keys IH]; intros approved; simpl.
  - split; [intros [= ->]; split; [done | by intros ? ?%elem_of_nil] | by intros [-> _]].
  - rewrite value_bind, check_rule_flag.
    destruct (value (rule true k)) as [b|e] eqn:Hk; simpl.
    + rewrite IH. split.
      * intros [[-> ->]%andb_true_iff Hall]. split; [done |].
        by intros prefix [->|?]%elem_of_cons; [|apply Hall].
      * intros [-> Hall]. split.
        -- pose proof (Hall k (list_elem_of_here _ _)) as Hk'.
           rewrite Hk in Hk'. by injection Hk' as ->.
        -- intros prefix Hin. apply Hall. by right.
    + split; [done |]. intros [_ Hall].
      pose proof (Hall k (list_elem_of_here _ _)). congruence.
Qed.

Lemma for_in_rules_false (keys : list string) (approved : bool) :
  value (for_in keys rule approved) = Return false →
  approved = false ∨ ∃ prefix, prefix ∈ keys ∧ value (rule true prefix) = Return false.
Proof.
  revert approved. induction keys as [|k keys IH]; intros approved; simpl.
  - intros [= ->]. by left.
  - rewrite value_bind, check_rule_flag.
    destruct (value (rule true k)) as [b|e] eqn:Hk; simpl; [|done].
    intros [Hand|(prefix & Hin & Hfalse)]%IH.
    + apply andb_false_iff in Hand as [->| ->]; [by left |].
      right. exists k. split; [left | done].
    + right. exists prefix. split; [by right | done].
Qed.

Lemma for_in_rules_Throw (keys : list string) (approved : bool) (prefix : string) (e : exn) :
  prefix ∈ keys →
  value (rule true prefix) = Throw e →
  value (for_in keys rule approved) = Throw TypeError.
Proof.
  revert approved. induction keys as [|k keys IH]; intros approved Hin Hthrow; simpl.
  - by apply elem_of_nil in Hin.
  - rewrite value_bind, check_rule_flag.
    destruct (value (rule true k)) as [b|e'] eqn:Hk; simpl.
    + apply elem_of_cons in Hin as [->|Hin]; [congruence |]. by apply IH.
    + by rewrite (check_rule_Throw true k e' Hk).
Qed.

End check_rules.

(** ** The claims about [getPossibleApprovers] and [check] *)

(** C1. [check] returns [true] exactly when every rule of the [reviewers]
    mapping whose prefix is a literal string prefix of at least one modified
    file has an approver set that resolves and holds at least
    [requiredApproverCount] of the approvals; an iteration for a prefix that
    matches no modified file changes nothing and logs nothing. *)
Theorem check_true_iff_matched_rules_met
    (reviewersConfig : Reviewers.t) (modifiedFilepaths approvals : list string)
    (infoLog warnLog : string → effect) :
  (value (check reviewersConfig modifiedFilepaths approvals infoLog warnLog) = Return true
   ↔ ∀ prefix conf,
       JsObject.get prefix (Reviewers.reviewers reviewersConfig) = Some conf →
       matches_some_file prefix modifiedFilepaths →
       rule_met (default ∅ (Reviewers.teams reviewersConfig)) approvals conf)
  ∧ (∀ prefix approved,
       ¬ matches_some_file prefix modifiedFilepaths →
       check_rule reviewersConfig modifiedFilepaths approvals infoLog warnLog approved prefix
       = mret approved).
Proof.
  split; [|intros prefix approved; apply check_rule_unmatched].
  unfold check. rewrite for_in_rules_true. split.
  - intros [_ Hall] prefix conf Hget.
    apply (check_rule_passes reviewersConfig modifiedFilepaths approvals
             infoLog warnLog prefix conf Hget).
    apply Hall, JsObject_elem_of_keys. by rewrite Hget.
  - intros Hmet. split; [done |]. intros prefix [conf Hget]%JsObject_elem_of_keys.
    apply (check_rule_passes reviewersConfig modifiedFilepaths approvals
             infoLog warnLog prefix conf Hget).
    by apply Hmet.
Qed.

Lemma check_true_iff_matched_rules_met_scenario_A :
  value (check Scenario.policyA ["src/a.ts"%string] ["bob"%string] core_info core_warning)
  = Return true.
Proof.
  apply (check_true_iff_matched_rules_met
           Scenario.policyA ["src/a.ts"%string] ["bob"%string] core_info core_warning).
  intros prefix conf Hget _. simpl in Hget.
  destruct (decide ("src/"%string = prefix)); [|done].
  injection Hget as <-. exists {["alice"%string; "bob"%string]}. split.
  - vm_compute. reflexivity.
  - vm_compute. discriminate.
Defined.

(** Scenario B: nobody approved, and the warning names who could have. *)
Example scenario_B_diagnostic :
  check Scenario.policyA ["src/a.ts"%string] [] core_info core_warning
  = mkEff [core_warning
             ("Modified Files:" +:+ nl +:+
              " - src/a.ts" +:+ nl +:+
              "Require 1 reviews from:" +:+ nl +:+
              "  users:" +:+ nl +:+
              " - alice" +:+ nl +:+ ", - bob" +:+ nl +:+
              "  teams: []" +:+ nl +:+
              "But only found 0 approvals: [].")]
          (Return false).
Proof. reflexivity. Qed.

(** How [run] ends, in terms of [check] and [checkOverride]. *)
Lemma run_value (RegExp : string → option (string → bool)) (postReview : bool)
    (reviewersConfig : Reviewers.t) (modifiedFilepaths approvals : list string)
    (committers : list (option string)) :
  value (run RegExp postReview reviewersConfig modifiedFilepaths approvals committers) =
    approved ← value (check reviewersConfig modifiedFilepaths approvals core_info core_warning);
    if approved : bool then Return true
    else checkOverride RegExp (default [] (Reviewers.overrides reviewersConfig))
           modifiedFilepaths committers.
Proof.
  unfold run. rewrite value_bind.
  destruct (value (check _ _ _ _ _)) as [[]|e]; simpl; [by destruct postReview | | done].
  rewrite value_bind.
  destruct (Reviewers.overrides reviewersConfig) as [overrides|]; simpl;
    [|by destruct postReview].
  destruct (checkOverride _ _ _ _) as [[]|e]; simpl; by destruct postReview.
Qed.

(** C3, as the code has it. A rule that names a team missing from the roster
    makes [getPossibleApprovers] throw instead of resolving to fewer
    approvers; when the rule's prefix matches a modified file, [check] and
    [run] end in that exception and produce no verdict; when it matches
    none, the rule's iteration resolves nothing and changes nothing. *)
Theorem missing_team_throws
    (RegExp : string → option (string → bool)) (postReview : bool)
    (reviewersConfig : Reviewers.t) (modifiedFilepaths approvals : list string)
    (committers : list (option string)) (infoLog warnLog : string → effect)
    (prefix : string) (conf : ReviewerConfiguration.t) (team : string) :
  JsObject.get prefix (Reviewers.reviewers reviewersConfig) = Some conf →
  team ∈ default [] (ReviewerConfiguration.teams conf) →
  default ∅ (Reviewers.teams reviewersConfig) !! team = None →
  getPossibleApprovers conf (default ∅ (Reviewers.teams reviewersConfig)) = Throw TypeError
  ∧ (matches_some_file prefix modifiedFilepaths →
     value (check reviewersConfig modifiedFilepaths approvals infoLog warnLog)
       = Throw TypeError
     ∧ value (run RegExp postReview reviewersConfig modifiedFilepaths approvals committers)
       = Throw TypeError)
  ∧ (¬ matches_some_file prefix modifiedFilepaths →
     ∀ approved,
       check_rule reviewersConfig modifiedFilepaths approvals infoLog warnLog approved prefix
       = mret approved).
Proof.
  intros Hget Hteam Hmissing.
  pose proof (getPossibleApprovers_missing_team _ conf team Hteam Hmissing) as Hthrow.
  split_and!; [done | | by intros Hno approved; apply check_rule_unmatched].
  intros Hmatch.
  assert (∀ info warn,
    value (check reviewersConfig modifiedFilepaths approvals info warn) = Throw TypeError)
    as Hcheck.
  { intros info warn. unfold check.
    apply for_in_rules_Throw with (prefix := prefix) (e := TypeError).
    - apply JsObject_elem_of_keys. by rewrite Hget.
    - rewrite check_rule_value, Hget.
      apply filter_startsWith_nonempty in Hmatch. rewrite Hmatch. simpl.
      by rewrite Hthrow. }
  split; [apply Hcheck |]. by rewrite run_value, Hcheck.
Qed.

Lemma missing_team_throws_scenario_E :
  getPossibleApprovers Scenario.docs_rule ∅ = Throw TypeError
  ∧ value (check Scenario.policyE ["docs/readme.md"%string] ["bob"%string]
             core_info core_warning) = Throw TypeError.
Proof.
  destruct (missing_team_throws anchored_literal false Scenario.policyE
              ["docs/readme.md"%string] ["bob"%string] [] core_info core_warning
              "docs/"%string Scenario.docs_rule "core-team"%string)
    as (Hresolve & Hcheck & _).
  - reflexivity.
  - simpl. left.
  - reflexivity.
  - split; [exact Hresolve |]. apply Hcheck.
    exists "docs/readme.md"%string, "readme.md"%string. split; [left | reflexivity].
Defined.

(** C3, as it is worded, fails: the rule for ["docs/"] names the team
    ["core-team"], the policy has no roster, and yet a change that touches
    only ["src/a.ts"] gets a verdict, because the rule is never resolved. *)
Lemma missing_team_of_unmatched_rule_goes_unnoticed :
  JsObject.get "docs/"%string (Reviewers.reviewers Scenario.policyE) = Some Scenario.docs_rule
  ∧ "core-team"%string ∈ default [] (ReviewerConfiguration.teams Scenario.docs_rule)
  ∧ default ∅ (Reviewers.teams Scenario.policyE) !! "core-team"%string = None
  ∧ check Scenario.policyE ["src/a.ts"%string] [] core_info core_warning
    = mkEff [] (Return true).
Proof. split_and!; [reflexivity | left | reflexivity | reflexivity]. Qed.

(** C5. When every team a rule names is in the roster, [getPossibleApprovers]
    returns the set whose members are exactly the rule's named users and the
    members of its named teams; a rule that lists the same users and the same
    teams in another order, or more than once, resolves to the same set. *)
Theorem getPossibleApprovers_is_union
    (teams : gmap string TeamConfiguration.t) (conf : ReviewerConfiguration.t) :
  teams_exist teams conf →
  (∃ possibleApprovers,
     getPossibleApprovers conf teams = Return possibleApprovers ∧
     ∀ user, user ∈ possibleApprovers ↔ may_approve teams conf user)
  ∧ (∀ conf',
       (∀ user, user ∈ default [] (ReviewerConfiguration.users conf')
                ↔ user ∈ default [] (ReviewerConfiguration.users conf)) →
       (∀ team, team ∈ default [] (ReviewerConfiguration.teams conf')
                ↔ team ∈ default [] (ReviewerConfiguration.teams conf)) →
       getPossibleApprovers conf' teams = getPossibleApprovers conf teams).
Proof.
  intros Hexist. destruct (getPossibleApprovers_Return teams conf Hexist) as [possible Hres].
  pose proof (getPossibleApprovers_spec teams conf) as Hspec.
  rewrite Hres in Hspec. destruct Hspec as [_ Hmem]. split; [eauto |].
  intros conf' Husers Hteams.
  assert (teams_exist teams conf') as Hexist'.
  { intros team Hin. apply Hexist, Hteams, Hin. }
  destruct (getPossibleApprovers_Return teams conf' Hexist') as [possible' Hres'].
  pose proof (getPossibleApprovers_spec teams conf') as Hspec'.
  rewrite Hres' in Hspec'. destruct Hspec' as [_ Hmem'].
  rewrite Hres, Hres'. f_equal. apply set_eq. intros user.
  rewrite Hmem, Hmem'. unfold may_approve. rewrite Husers.
  by setoid_rewrite Hteams.
Qed.

Lemma getPossibleApprovers_is_union_example :
  ∃ possibleApprovers,
    getPossibleApprovers Scenario.both_teams_rule Scenario.roster = Return possibleApprovers ∧
    ∀ user, user ∈ possibleApprovers
            ↔ may_approve Scenario.roster Scenario.both_teams_rule user.
Proof.
  apply (getPossibleApprovers_is_union Scenario.roster Scenario.both_teams_rule).
  intros team Hin. simpl in Hin.
  apply elem_of_cons in Hin as [->|Hin]; [by eexists |].
  apply elem_of_cons in Hin as [->|Hin]; [by eexists |].
  by apply elem_of_nil in Hin.
Defined.

(** C7. With an empty [reviewers] mapping, [check] returns [true] (and logs
    nothing) whatever files were modified and whoever approved. *)
Theorem check_without_rules
    (reviewersConfig : Reviewers.t) (modifiedFilepaths approvals : list string)
    (infoLog warnLog : string → effect) :
  Reviewers.reviewers reviewersConfig = [] →
  check reviewersConfig modifiedFilepaths approvals infoLog warnLog = mkEff [] (Return true).
Proof. intros Hempty. unfold check. by rewrite Hempty. Qed.

Lemma check_without_rules_example :
  check (Reviewers.mk (Some Scenario.roster) [] None) ["src/a.ts"%string] []
        core_info core_warning
  = mkEff [] (Return true).
Proof. apply check_without_rules. reflexivity. Defined.

(** C8, as the code has it. For a rule with [requiredApproverCount = 0]
    whose prefix matches a modified file, the approvals do not matter: how
    its iteration ends depends on the resolution of its approvers alone and
    leaves the flag as it was; when its teams are all in the roster the rule
    passes, the iteration only logging that the requirements are met. Such a
    rule is never why [check] returns [false]: a [false] verdict comes from a
    different rule, one that is matched, resolved and short of approvals. *)
Theorem zero_required_rule_passes
    (reviewersConfig : Reviewers.t) (modifiedFilepaths approvals : list string)
    (infoLog warnLog : string → effect)
    (prefix : string) (conf : ReviewerConfiguration.t) :
  JsObject.get prefix (Reviewers.reviewers reviewersConfig) = Some conf →
  ReviewerConfiguration.requiredApproverCount conf = 0 →
  matches_some_file prefix modifiedFilepaths →
  (∀ approved,
     value (check_rule reviewersConfig modifiedFilepaths approvals infoLog warnLog
              approved prefix)
     = getPossibleApprovers conf (default ∅ (Reviewers.teams reviewersConfig))
         ≫= λ _, Return approved)
  ∧ (teams_exist (default ∅ (Reviewers.teams reviewersConfig)) conf →
   ∀ approved,
     check_rule reviewersConfig modifiedFilepaths approvals infoLog warnLog approved prefix
     = mkEff [infoLog (prefix +:+ " review requirements met.")] (Return approved))
  ∧ (value (check reviewersConfig modifiedFilepaths approvals infoLog warnLog) = Return false →
     ∃ prefix' conf' possibleApprovers,
       prefix' ≠ prefix ∧
       JsObject.get prefix' (Reviewers.reviewers reviewersConfig) = Some conf' ∧
       matches_some_file prefix' modifiedFilepaths ∧
       getPossibleApprovers conf' (default ∅ (Reviewers.teams reviewersConfig))
         = Return possibleApprovers ∧
       Z.of_nat (relevant_count possibleApprovers approvals)
         < ReviewerConfiguration.requiredApproverCount conf').
Proof.
  intros Hget Hzero Hmatch. split_and!.
  - intros approved. rewrite check_rule_value, Hget. simpl.
    apply filter_startsWith_nonempty in Hmatch. rewrite Hmatch.
    destruct (getPossibleApprovers _ _) as [possible|e]; simpl; [|done].
    rewrite Hzero. destruct (_ <? 0) eqn:Hlt; [apply Z.ltb_lt in Hlt; lia | done].
  - intros Hexist approved.
    destruct (getPossibleApprovers_Return _ conf Hexist) as [possible Hres].
    apply filter_startsWith_nonempty in Hmatch.
    unfold check_rule. rewrite Hmatch, Hget. simpl.
    unfold mbind, Eff_bind. simpl. rewrite Hres. simpl. rewrite Hzero.
    destruct (_ <? 0) eqn:Hlt; [apply Z.ltb_lt in Hlt; lia | done].
  - unfold check. intros [Habs|(prefix' & _ & Hfalse)]%for_in_rules_false; [done |].
    apply check_rule_fails in Hfalse
      as (Hmatch' & conf' & possible & Hget' & Hres & Hlt).
    exists prefix', conf', possible. split_and!; try done.
    intros ->. rewrite Hget in Hget'. injection Hget' as <-. lia.
Qed.

(** C8, as it is worded, fails: the rule for ["src/"] asks for no approval
    and matches the modified file, but it names the team ["ghost"], which the
    roster lacks; its approvers are resolved before the count is compared,
    so the rule does not pass: [check] throws. *)
Lemma zero_required_rule_with_missing_team_throws :
  JsObject.get "src/"%string (Reviewers.reviewers Sample.policy_ghost)
    = Some Sample.ghost_rule
  ∧ ReviewerConfiguration.requiredApproverCount Sample.ghost_rule = 0
  ∧ matches_some_file "src/"%string ["src/a.ts"%string]
  ∧ check Sample.policy_ghost ["src/a.ts"%string] [] core_info core_warning
    = mkEff [] (Throw TypeError).
Proof.
  split_and!; [reflexivity | reflexivity | | reflexivity].
  exists "src/a.ts"%string, "a.ts"%string. split; [left | reflexivity].
Qed.

Lemma zero_required_rule_passes_example :
  value (check Scenario.policy_free ["docs/a.md"; "src/a.ts"]%string [] core_info core_warning)
    = Return false
  ∧ ∃ prefix' conf' possibleApprovers,
      prefix' ≠ "docs/"%string ∧
      JsObject.get prefix' (Reviewers.reviewers Scenario.policy_free) = Some conf' ∧
      matches_some_file prefix' ["docs/a.md"; "src/a.ts"]%string ∧
      getPossibleApprovers conf' (default ∅ (Reviewers.teams Scenario.policy_free))
        = Return possibleApprovers ∧
      Z.of_nat (relevant_count possibleApprovers [])
        < ReviewerConfiguration.requiredApproverCount conf'.
Proof.
  split; [reflexivity |].
  eapply (zero_required_rule_passes Scenario.policy_free ["docs/a.md"; "src/a.ts"]%string []
           core_info core_warning "docs/"%string Scenario.free_rule).
  - reflexivity.
  - reflexivity.
  - exists "docs/a.md"%string, "a.md"%string. split; [left | reflexivity].
  - reflexivity.
Defined.

(** ** [every] and [some] *)

Section iteration.

Context {A : Type} (f : A → result bool).

Lemma some_true (l : list A) :
  some f l = Return true → ∃ x, x ∈ l ∧ f x = Return true.
Proof.
  induction l as [|x l IH]; simpl; [done |].
  destruct (f x) as [[]|e] eqn:Hx; simpl; [| |done].
  - intros _. exists x. split; [left | done].
  - intros (y & ? & ?)%IH. exists y. split; [by right | done].
Qed.

Lemma every_true (l : list A) :
  every f l = Return true → ∀ x, x ∈ l → f x = Return true.
Proof.
  induction l as [|x l IH]; simpl; [by intros _ ? ?%elem_of_nil |].
  destruct (f x) as [[]|e] eqn:Hx; simpl; [|done..].
  intros Hrest y [->|Hin]%elem_of_cons; [done | by apply IH].
Qed.

(** When the callback throws on no element, the iteration returns, and
    its answer is the quantifier it is named after. *)
Lemma some_returns (l : list A) :
  (∀ x, x ∈ l → ∃ b, f x = Return b) →
  ∃ b, some f l = Return b ∧ (b = true ↔ ∃ x, x ∈ l ∧ f x = Return true).
Proof.
  induction l as [|x l IH]; simpl; intros Hret.
  - exists false. split; [done |]. split; [done | by intros (? & ?%elem_of_nil & _)].
  - destruct (Hret x) as [b Hx]; [left |]. rewrite Hx. simpl. destruct b.
    + exists true. split; [done |]. split; [|done]. intros _. exists x. split; [left | done].
    + destruct IH as (b & Hsome & Hb); [intros y Hy; apply Hret; by right |].
      exists b. split; [done |]. rewrite Hb. split.
      * intros (y & ? & ?). exists y. split; [by right | done].
      * intros (y & [->|?]%elem_of_cons & Hy); [congruence | eauto].
Qed.

Lemma every_returns (l : list A) :
  (∀ x, x ∈ l → ∃ b, f x = Return b) →
  ∃ b, every f l = Return b ∧ (b = true ↔ ∀ x, x ∈ l → f x = Return true).
Proof.
  induction l as [|x l IH]; simpl; intros Hret.
  - exists true. split; [done |]. split; [by intros _ ? ?%elem_of_nil | done].
  - destruct (Hret x) as [b Hx]; [left |]. rewrite Hx. simpl. destruct b.
    + destruct IH as (b & Hevery & Hb); [intros y Hy; apply Hret; by right |].
      exists b. split; [done |]. rewrite Hb. split.
      * intros Hall y [->|?]%elem_of_cons; [done | by apply Hall].
      * intros Hall y Hy. apply Hall. by right.
    + exists false. split; [done |]. split; [done |].
      intros Hall. pose proof (Hall x (list_elem_of_here _ _)). congruence.
Qed.

End iteration.

(** ** [checkOverride] *)

Section override.

Context (RegExp : string → option (string → bool)).
Context (modifiedFilePaths : list string) (modifiedByUsers : list (option string)).

Lemma committers_allowed (users : list string) :
  forallb (committer_allowed (list_to_set users)) modifiedByUsers = true
  ↔ ∀ committer, committer ∈ modifiedByUsers →
      ∃ user, committer = Some user ∧ user ∈ users.
Proof.
  rewrite forallb_forall. setoid_rewrite <- list_elem_of_In. split.
  - intros Hall [user|] Hin; specialize (Hall _ Hin); simpl in Hall; [|done].
    apply bool_decide_eq_true in Hall. apply elem_of_list_to_set in Hall. eauto.
  - intros Hall committer Hin. destruct (Hall _ Hin) as (user & -> & Huser). simpl.
    apply bool_decide_eq_true. by apply elem_of_list_to_set.
Qed.

Lemma file_matched_true (patterns : list string) (file : string) :
  some (λ pattern, RegExp_test RegExp pattern file) patterns = Return true →
  ∃ pattern test, pattern ∈ patterns ∧ RegExp pattern = Some test ∧ test file = true.
Proof.
  intros (pattern & Hin & Htest)%some_true. unfold RegExp_test in Htest.
  destruct (RegExp pattern) as [test|] eqn:Hre; [|done].
  injection Htest as Htest. eauto.
Qed.

Lemma file_matched_returns (patterns : list string) (file : string) :
  (∀ pattern, pattern ∈ patterns → is_Some (RegExp pattern)) →
  ∃ b, some (λ pattern, RegExp_test RegExp pattern file) patterns = Return b ∧
       (b = true ↔
        ∃ pattern test, pattern ∈ patterns ∧ RegExp pattern = Some test ∧ test file = true).
Proof.
  intros Hcompile.
  destruct (some_returns (λ pattern, RegExp_test RegExp pattern file) patterns)
    as (b & Hsome & Hb).
  { intros pattern [test Hre]%Hcompile. unfold RegExp_test. rewrite Hre. eauto. }
  exists b. split; [done |]. rewrite Hb. split.
  - intros (pattern & Hin & Htest). unfold RegExp_test in Htest.
    destruct (RegExp pattern) as [test|] eqn:Hre; [|done].
    injection Htest as Htest. eauto.
  - intros (pattern & test & Hin & Hre & Htest). exists pattern. split; [done |].
    unfold RegExp_test. by rewrite Hre, Htest.
Qed.

(** An entry that returns [true] has both clauses satisfied, whatever the
    patterns are. *)
Lemma criteria_satisfied_true (crit : OverrideCriteria.t) :
  criteria_satisfied RegExp modifiedFilePaths modifiedByUsers crit = Return true →
  users_clause crit modifiedByUsers ∧ files_clause RegExp crit modifiedFilePaths.
Proof.
  unfold criteria_satisfied, users_clause, files_clause.
  destruct (OverrideCriteria.onlyModifiedByUsers crit) as [users|];
    destruct (OverrideCriteria.onlyModifiedFileRegExs crit) as [patterns|]; simpl.
  - destruct (forallb _ _) eqn:Hall; [|done]. rewrite committers_allowed in Hall.
    intros Hevery. split; [by intros ? [= <-] |]. intros ? [= <-] file Hin.
    by eapply file_matched_true, (every_true _ _ Hevery).
  - intros [= Hall]. rewrite committers_allowed in Hall. split; [by intros ? [= <-] | done].
  - intros Hevery. split; [done |]. intros ? [= <-] file Hin.
    by eapply file_matched_true, (every_true _ _ Hevery).
  - done.
Qed.

(** An entry whose patterns all compile returns, and returns whether both
    clauses are satisfied. *)
Lemma criteria_satisfied_returns (crit : OverrideCriteria.t) :
  (∀ patterns pattern,
     OverrideCriteria.onlyModifiedFileRegExs crit = Some patterns →
     pattern ∈ patterns → is_Some (RegExp pattern)) →
  ∃ b, criteria_satisfied RegExp modifiedFilePaths modifiedByUsers crit = Return b ∧
       (b = true ↔
        users_clause crit modifiedByUsers ∧ files_clause RegExp crit modifiedFilePaths).
Proof.
  intros Hcompile.
  destruct (criteria_satisfied RegExp modifiedFilePaths modifiedByUsers crit)
    as [[]|e] eqn:Hcrit.
  - exists true. split; [done |]. split; [|done]. intros _.
    by apply criteria_satisfied_true.
  - exists false. split; [done |]. split; [done |]. intros [Husers Hfiles].
    revert Hcrit. unfold criteria_satisfied, users_clause, files_clause in *.
    destruct (OverrideCriteria.onlyModifiedByUsers crit) as [users|].
    + specialize (Husers users eq_refl). rewrite <- committers_allowed in Husers.
      rewrite Husers. simpl.
      destruct (OverrideCriteria.onlyModifiedFileRegExs crit) as [patterns|]; [|done].
      destruct (every_returns
                  (λ file, some (λ pattern, RegExp_test RegExp pattern file) patterns)
                  modifiedFilePaths) as (b & -> & Hb).
      { intros file _. destruct (file_matched_returns patterns file) as (b & ? & _); eauto. }
      intros [= ->]. enough (false = true) by done. apply Hb. intros file Hin.
      destruct (file_matched_returns patterns file) as (b & -> & Hb'); [eauto |].
      f_equal. apply Hb'. eauto.
    + simpl.
      destruct (OverrideCriteria.onlyModifiedFileRegExs crit) as [patterns|]; [|done].
      destruct (every_returns
                  (λ file, some (λ pattern, RegExp_test RegExp pattern file) patterns)
                  modifiedFilePaths) as (b & -> & Hb).
      { intros file _. destruct (file_matched_returns patterns file) as (b & ? & _); eauto. }
      intros [= ->]. enough (false = true) by done. apply Hb. intros file Hin.
      destruct (file_matched_returns patterns file) as (b & -> & Hb'); [eauto |].
      f_equal. apply Hb'. eauto.
  - exfalso. revert Hcrit. unfold criteria_satisfied.
    destruct (OverrideCriteria.onlyModifiedFileRegExs crit) as [patterns|];
      [|by destruct (OverrideCriteria.onlyModifiedByUsers crit)].
    destruct (every_returns
                (λ file, some (λ pattern, RegExp_test RegExp pattern file) patterns)
                modifiedFilePaths) as (b & -> & Hb).
    { intros file _. destruct (file_matched_returns patterns file) as (b & ? & _); eauto. }
    destruct (OverrideCriteria.onlyModifiedByUsers crit) as [users|]; simpl; [|done].
    by destruct (forallb _ _).
Qed.

End override.

(** ** The claims about [checkOverride] and [run] *)

Section override_list.

Context (RegExp : string → option (string → bool)).
Context (modifiedFilePaths : list string) (modifiedByUsers : list (option string)).

(** The entries that satisfy the specification's two clauses. *)
Local Abbreviation satisfied crit :=
  (users_clause crit modifiedByUsers ∧ files_clause RegExp crit modifiedFilePaths).

Lemma checkOverride_true (overrides : list OverrideCriteria.t) :
  checkOverride RegExp overrides modifiedFilePaths modifiedByUsers = Return true →
  ∃ crit, crit ∈ overrides ∧ satisfied crit.
Proof.
  intros (crit & Hin & Htrue)%some_true. exists crit. split; [done |].
  by apply criteria_satisfied_true.
Qed.

Lemma checkOverride_returns (overrides : list OverrideCriteria.t) :
  patterns_compile RegExp overrides →
  ∃ b, checkOverride RegExp overrides modifiedFilePaths modifiedByUsers = Return b ∧
       (b = true ↔ ∃ crit, crit ∈ overrides ∧ satisfied crit).
Proof.
  intros Hcompile. unfold checkOverride.
  destruct (some_returns (criteria_satisfied RegExp modifiedFilePaths modifiedByUsers)
              overrides) as (b & Hsome & Hb).
  { intros crit Hin.
    destruct (criteria_satisfied_returns RegExp modifiedFilePaths modifiedByUsers crit)
      as (b & ? & _); [|by eauto].
    intros patterns pattern. by apply Hcompile. }
  exists b. split; [done |]. rewrite Hb. split.
  - intros (crit & Hin & Htrue). exists crit. split; [done |].
    by apply criteria_satisfied_true.
  - intros (crit & Hin & Hclauses). exists crit. split; [done |].
    destruct (criteria_satisfied_returns RegExp modifiedFilePaths modifiedByUsers crit)
      as (b' & -> & Hb').
    { intros patterns pattern. by apply Hcompile. }
    f_equal. by apply Hb'.
Qed.

End override_list.

(** C2, as the code has it. [checkOverride] of an empty list is [false].
    Whenever [checkOverride] returns [true], some entry has its
    [onlyModifiedByUsers] clause and its [onlyModifiedFileRegExs] clause both
    satisfied, an absent clause being satisfied. When the patterns of the
    entries are regular expressions the engine accepts, [checkOverride]
    returns, and returns [true] exactly when there is such an entry. *)
Theorem checkOverride_true_iff_some_entry_satisfied
    (RegExp : string → option (string → bool))
    (modifiedFilePaths : list string) (modifiedByUsers : list (option string)) :
  checkOverride RegExp [] modifiedFilePaths modifiedByUsers = Return false
  ∧ (∀ overrides,
       checkOverride RegExp overrides modifiedFilePaths modifiedByUsers = Return true →
       ∃ crit, crit ∈ overrides ∧
               users_clause crit modifiedByUsers ∧
               files_clause RegExp crit modifiedFilePaths)
  ∧ (∀ overrides,
       patterns_compile RegExp overrides →
       ∃ b, checkOverride RegExp overrides modifiedFilePaths modifiedByUsers = Return b ∧
            (b = true ↔
             ∃ crit, crit ∈ overrides ∧
                     users_clause crit modifiedByUsers ∧
                     files_clause RegExp crit modifiedFilePaths)).
Proof.
  split_and!; [done | apply checkOverride_true | apply checkOverride_returns].
Qed.

(** C2, as it is worded, fails: the second entry has no clause and so is
    satisfied, yet [checkOverride] returns nothing, because the pattern of
    the first entry is compiled first and rejected. *)
Lemma checkOverride_throws_despite_satisfied_entry :
  checkOverride anchored_literal [Sample.malformed; Sample.wildcard] ["src/a.ts"%string] []
  = Throw SyntaxError
  ∧ ∃ crit,
      crit ∈ [Sample.malformed; Sample.wildcard] ∧
      users_clause crit [] ∧
      files_clause anchored_literal crit ["src/a.ts"%string].
Proof.
  split; [reflexivity |]. exists Sample.wildcard.
  split_and!; [right; left | by intros ? [=] | by intros ? [=]].
Qed.

Lemma checkOverride_true_iff_some_entry_satisfied_example :
  ∃ b, checkOverride anchored_literal [Override.docs_only; Override.bot_only]
         ["src/a.ts"%string] [Some "bot"%string] = Return b ∧
       (b = true ↔
        ∃ crit, crit ∈ [Override.docs_only; Override.bot_only] ∧
                users_clause crit [Some "bot"%string] ∧
                files_clause anchored_literal crit ["src/a.ts"%string]).
Proof.
  apply (checkOverride_true_iff_some_entry_satisfied anchored_literal
           ["src/a.ts"%string] [Some "bot"%string]).
  intros crit patterns pattern Hcrit Hpatterns Hpattern.
  apply elem_of_cons in Hcrit as [->|Hcrit].
  - injection Hpatterns as <-. apply list_elem_of_singleton in Hpattern as ->. by eexists.
  - apply list_elem_of_singleton in Hcrit as ->. discriminate Hpatterns.
Defined.

(** Scenario D: the only modified file is not under ["docs/"], so the
    override does not apply and the rejection stands. *)
Example scenario_D_rejected :
  checkOverride anchored_literal [Override.docs_only] ["src/a.ts"%string] [] = Return false
  ∧ run anchored_literal true
      (Reviewers.mk None [("src/"%string, Scenario.src_rule)] (Some [Override.docs_only]))
      ["src/a.ts"%string] [] []
    = mkEff [core_warning
               (warning_text ["src/a.ts"%string] Scenario.src_rule 0 []);
             core_info "required-reviews.run.6";
             createReview "REQUEST_CHANGES" "Missing required reviewers"]
            (Return false).
Proof. by split. Qed.

(** A pattern the engine rejects ends [checkOverride] before a later entry,
    here one that every change satisfies, is looked at. *)
Example malformed_pattern_throws :
  checkOverride anchored_literal
    [OverrideCriteria.mk None None (Some ["("]%string); OverrideCriteria.mk None None None]
    ["src/a.ts"%string] []
  = Throw SyntaxError.
Proof. reflexivity. Qed.

(** C9, as the code has it. Both clauses quantify over their input list, so
    an empty list satisfies them: with no committers an entry is judged as if
    it had no [onlyModifiedByUsers] clause, with no modified files as if it
    had no [onlyModifiedFileRegExs] clause. When the list has an entry whose
    present clauses all face an empty list, [checkOverride] returns [true]
    if the patterns of the entries compile, and also, whatever the patterns
    are, if there is no modified file. *)
Theorem empty_inputs_satisfy_override
    (RegExp : string → option (string → bool)) :
  (∀ modifiedFilePaths crit,
     criteria_satisfied RegExp modifiedFilePaths [] crit
     = criteria_satisfied RegExp modifiedFilePaths []
         (OverrideCriteria.mk (OverrideCriteria.description crit) None
            (OverrideCriteria.onlyModifiedFileRegExs crit)))
  ∧ (∀ modifiedByUsers crit,
       criteria_satisfied RegExp [] modifiedByUsers crit
       = criteria_satisfied RegExp [] modifiedByUsers
           (OverrideCriteria.mk (OverrideCriteria.description crit)
              (OverrideCriteria.onlyModifiedByUsers crit) None))
  ∧ (∀ crit, criteria_satisfied RegExp [] [] crit = Return true)
  ∧ (∀ overrides modifiedFilePaths modifiedByUsers crit,
       crit ∈ overrides →
       patterns_compile RegExp overrides →
       (is_Some (OverrideCriteria.onlyModifiedByUsers crit) → modifiedByUsers = []) →
       (is_Some (OverrideCriteria.onlyModifiedFileRegExs crit) → modifiedFilePaths = []) →
       checkOverride RegExp overrides modifiedFilePaths modifiedByUsers = Return true)
  ∧ (∀ overrides modifiedByUsers crit,
       crit ∈ overrides →
       (is_Some (OverrideCriteria.onlyModifiedByUsers crit) → modifiedByUsers = []) →
       checkOverride RegExp overrides [] modifiedByUsers = Return true).
Proof.
  split_and!.
  - intros files crit. unfold criteria_satisfied. simpl.
    by destruct (OverrideCriteria.onlyModifiedByUsers crit).
  - intros committers crit. unfold criteria_satisfied. simpl.
    destruct (OverrideCriteria.onlyModifiedFileRegExs crit); [|done].
    destruct (OverrideCriteria.onlyModifiedByUsers crit); [|done].
    simpl. by destruct (forallb _ _).
  - intros crit. unfold criteria_satisfied.
    by destruct (OverrideCriteria.onlyModifiedByUsers crit),
                (OverrideCriteria.onlyModifiedFileRegExs crit).
  - intros overrides files committers crit Hin Hcompile Husers Hfiles.
    destruct (checkOverride_returns RegExp files committers overrides Hcompile)
      as (b & -> & Hb).
    f_equal. apply Hb. exists crit. split; [done |]. split.
    + intros allowed Hsome committer Hc. rewrite Husers in Hc; [|by eexists].
      by apply elem_of_nil in Hc.
    + intros patterns Hsome file Hf. rewrite Hfiles in Hf; [|by eexists].
      by apply elem_of_nil in Hf.
  - intros overrides committers crit Hin Husers. unfold checkOverride.
    destruct (some_returns (criteria_satisfied RegExp [] committers) overrides)
      as (b & -> & Hb).
    { intros entry _. unfold criteria_satisfied.
      destruct (OverrideCriteria.onlyModifiedByUsers entry),
               (OverrideCriteria.onlyModifiedFileRegExs entry); simpl;
        try destruct (forallb _ _); eauto. }
    f_equal. apply Hb. exists crit. split; [done |]. unfold criteria_satisfied.
    destruct (OverrideCriteria.onlyModifiedByUsers crit) as [users|] eqn:Hsome.
    + rewrite Husers by eauto. simpl.
      by destruct (OverrideCriteria.onlyModifiedFileRegExs crit).
    + by destruct (OverrideCriteria.onlyModifiedFileRegExs crit).
Qed.

(** C9, as it is worded, fails: the only clause of the second entry faces an
    empty list of committers, yet [checkOverride] returns nothing, because
    there is a modified file and the pattern of the first entry is rejected
    before the second entry is looked at. *)
Lemma satisfied_entry_behind_malformed_pattern :
  Override.bot_only ∈ [Sample.malformed; Override.bot_only]
  ∧ (is_Some (OverrideCriteria.onlyModifiedByUsers Override.bot_only) →
     ([] : list (option string)) = [])
  ∧ (is_Some (OverrideCriteria.onlyModifiedFileRegExs Override.bot_only) →
     ["src/a.ts"%string] = [])
  ∧ checkOverride anchored_literal [Sample.malformed; Override.bot_only]
      ["src/a.ts"%string] []
    = Throw SyntaxError.
Proof.
  split_and!; [right; left | done | by intros [? [=]] | reflexivity].
Qed.

Lemma empty_inputs_satisfy_override_example :
  checkOverride anchored_literal [Override.docs_only; Override.bot_only]
    ["src/a.ts"%string] [] = Return true.
Proof.
  destruct (empty_inputs_satisfy_override anchored_literal) as (_ & _ & _ & Hlist & _).
  apply (Hlist _ _ _ Override.bot_only).
  - right. left.
  - intros crit patterns pattern Hcrit Hpatterns Hpattern.
    apply elem_of_cons in Hcrit as [->|Hcrit].
    + injection Hpatterns as <-. apply list_elem_of_singleton in Hpattern as ->. by eexists.
    + apply list_elem_of_singleton in Hcrit as ->. discriminate Hpatterns.
  - reflexivity.
  - intros [patterns Hsome]. discriminate Hsome.
Defined.

(** C4. The verdict of [run] is the disjunction of [check] and
    [checkOverride]: when [check] returns [true] the change is approved and
    nothing of [run] depends on the overrides (or on the regular-expression
    engine); when [check] returns [false] the change is approved exactly when
    [checkOverride] returns [true] on the overrides, absent overrides
    counting as an empty list. *)
Theorem run_verdict_is_check_or_override
    (RegExp : string → option (string → bool)) (postReview : bool)
    (reviewersConfig : Reviewers.t) (modifiedFilepaths approvals : list string)
    (committers : list (option string)) :
  let rules :=
    value (check reviewersConfig modifiedFilepaths approvals core_info core_warning) in
  let override :=
    checkOverride RegExp (default [] (Reviewers.overrides reviewersConfig))
      modifiedFilepaths committers in
  let verdict :=
    value (run RegExp postReview reviewersConfig modifiedFilepaths approvals committers) in
  (rules = Return true →
   verdict = Return true ∧
   ∀ RegExp' overrides',
     run RegExp' postReview
       (Reviewers.mk (Reviewers.teams reviewersConfig) (Reviewers.reviewers reviewersConfig)
          overrides')
       modifiedFilepaths approvals committers
     = run RegExp postReview reviewersConfig modifiedFilepaths approvals committers)
  ∧ (rules = Return false → (verdict = Return true ↔ override = Return true))
  ∧ (∀ approved overridden,
       rules = Return approved → override = Return overridden →
       verdict = Return (approved || overridden)).
Proof.
  intros rules override verdict. subst verdict. rewrite run_value. fold rules override.
  split_and!.
  - intros Hrules. rewrite Hrules. split; [done |]. intros RegExp' overrides'.
    subst rules. unfold run.
    change (check (Reviewers.mk _ _ overrides') modifiedFilepaths approvals
              core_info core_warning)
      with (check reviewersConfig modifiedFilepaths approvals core_info core_warning).
    destruct (check reviewersConfig modifiedFilepaths approvals core_info core_warning)
      as [l v]. simpl in Hrules. subst v. reflexivity.
  - intros ->. done.
  - intros approved overridden -> ->. by destruct approved.
Qed.

Lemma run_verdict_is_check_or_override_scenario_C :
  value (run anchored_literal false Override.policyC ["src/a.ts"%string] []
           [Some "bot"%string])
  = Return (false || true).
Proof.
  apply (run_verdict_is_check_or_override anchored_literal false Override.policyC
           ["src/a.ts"%string] [] [Some "bot"%string]); reflexivity.
Defined.

(** ** Property assignment *)

Section assignment.

Context {V : Type}.
Implicit Types (o : JsObject.t V) (k : string) (v : V).

Lemma JsObject_keys_overwrite k v o :
  JsObject.keys (JsObject.overwrite k v o) = JsObject.keys o.
Proof.
  unfold JsObject.keys. induction o as [|[k' v'] o IH]; simpl; [done |].
  destruct (decide (k' = k)); rewrite !fmap_cons; [done | by rewrite IH].
Qed.

Lemma JsObject_get_overwrite k v o k' :
  is_Some (JsObject.get k o) →
  JsObject.get k' (JsObject.overwrite k v o)
  = if decide (k = k') then Some v else JsObject.get k' o.
Proof.
  induction o as [|[k1 v1] o IH]; simpl; [by intros [? ?] |].
  destruct (decide (k1 = k)) as [->|Hne]; simpl.
  - intros _. destruct (decide (k = k')); done.
  - intros Hsome. rewrite (IH Hsome).
    destruct (decide (k1 = k')) as [->|]; [|done].
    by destruct (decide (k = k')).
Qed.

Lemma JsObject_keys_create_index n k v o :
  JsObject.keys (JsObject.create_index n k v o) ≡ₚ k :: JsObject.keys o.
Proof.
  unfold JsObject.keys. induction o as [|[k' v'] o IH]; simpl; [done |].
  destruct (JsObject.array_index k') as [n'|]; [|done].
  destruct (n' <? n)%N; [|done].
  rewrite !fmap_cons, IH. apply Permutation_swap.
Qed.

Lemma JsObject_get_create_index n k v o k' :
  JsObject.get k o = None →
  JsObject.get k' (JsObject.create_index n k v o)
  = if decide (k = k') then Some v else JsObject.get k' o.
Proof.
  induction o as [|[k1 v1] o IH]; simpl; [done |].
  destruct (decide (k1 = k)) as [|Hne]; [done |]. intros Hnone.
  destruct (JsObject.array_index k1) as [n'|]; [|done].
  destruct (n' <? n)%N; [|done].
  simpl. rewrite (IH Hnone).
  destruct (decide (k1 = k')) as [->|]; [|done].
  by destruct (decide (k = k')).
Qed.

Lemma JsObject_get_snoc k v o k' :
  JsObject.get k o = None →
  JsObject.get k' (o ++ [(k, v)]) = if decide (k = k') then Some v else JsObject.get k' o.
Proof.
  induction o as [|[k1 v1] o IH]; simpl; [done |].
  destruct (decide (k1 = k)) as [|Hne]; [done |]. intros Hnone. rewrite (IH Hnone).
  destruct (decide (k1 = k')) as [->|]; [|done].
  by destruct (decide (k = k')).
Qed.

(** The setter of ["__proto__"] stores nothing. *)
Lemma JsObject_set_proto v o : JsObject.set "__proto__" v o = o.
Proof. reflexivity. Qed.

(** Reading after writing. *)
Lemma JsObject_get_set k v o k' :
  k ≠ "__proto__"%string →
  JsObject.get k' (JsObject.set k v o) = if decide (k = k') then Some v else JsObject.get k' o.
Proof.
  intros Hproto. unfold JsObject.set, JsObject.create. rewrite decide_False by done.
  destruct (JsObject.get k o) as [v0|] eqn:Hget.
  - apply JsObject_get_overwrite. by rewrite Hget.
  - destruct (JsObject.array_index k).
    + by apply JsObject_get_create_index.
    + by apply JsObject_get_snoc.
Qed.

(** No assignment makes a key appear twice. *)
Lemma JsObject_NoDup_keys_set k v o :
  NoDup (JsObject.keys o) → NoDup (JsObject.keys (JsObject.set k v o)).
Proof.
  intros Hnodup. unfold JsObject.set, JsObject.create.
  destruct (decide (k = "__proto__"%string)); [done |].
  destruct (JsObject.get k o) as [v0|] eqn:Hget.
  - by rewrite JsObject_keys_overwrite.
  - assert (k ∉ JsObject.keys o) as Hfresh.
    { rewrite JsObject_elem_of_keys, Hget. by intros [? ?]. }
    destruct (JsObject.array_index k).
    + rewrite JsObject_keys_create_index. by apply NoDup_cons.
    + unfold JsObject.keys in *. rewrite fmap_app. simpl.
      apply NoDup_app. split_and!; [done | | apply NoDup_singleton].
      by intros k' Hin ->%list_elem_of_singleton.
Qed.

End assignment.

(** ** [getApprovals] *)

Lemma latest_state_snoc (login : string) (prReviews : list Review.t) (review : Review.t) :
  latest_state login (prReviews ++ [review])
  = if decide (significant login review) then Some (Review.state review)
    else latest_state login prReviews.
Proof.
  unfold latest_state. rewrite filter_app, filter_cons, filter_nil.
  destruct (decide (significant login review)).
  - by rewrite last_snoc.
  - by rewrite app_nil_r.
Qed.

Lemma record_review_get (login : string) (reviewStatus : JsObject.t string) (review : Review.t) :
  login ≠ "__proto__"%string →
  JsObject.get login (record_review reviewStatus review)
  = if decide (significant login review) then Some (Review.state review)
    else JsObject.get login reviewStatus.
Proof.
  intros Hproto. unfold record_review, significant.
  destruct review as [[[name]|] state]; simpl.
  - destruct (decide (state ≠ "COMMENTED"%string)) as [Hstate|Hstate].
    + destruct (decide (name = login)) as [->|Hne].
      * rewrite JsObject_get_set by done. by rewrite !decide_True.
      * rewrite (decide_False (P := _ ∧ _)); [|by intros [[= ?] _]].
        destruct (decide (name = "__proto__"%string)) as [->|Hname]; [done |].
        rewrite JsObject_get_set by done. by rewrite decide_False.
    + rewrite decide_False; [done |]. by intros [_ ?].
  - done.
Qed.

(** No review makes ["__proto__"] a property. *)
Lemma record_review_get_proto (reviewStatus : JsObject.t string) (review : Review.t) :
  JsObject.get "__proto__" (record_review reviewStatus review)
  = JsObject.get "__proto__" reviewStatus.
Proof.
  unfold record_review. destruct (Review.user review) as [[name]|]; [|done]. simpl.
  destruct (decide _); [|done].
  destruct (decide (name = "__proto__"%string)) as [->|Hname]; [done |].
  rewrite JsObject_get_set by done. by rewrite decide_False.
Qed.

Lemma reviewStatus_get (login : string) (prReviews : list Review.t)
    (reviewStatus : JsObject.t string) :
  login ≠ "__proto__"%string →
  JsObject.get login (foldl record_review reviewStatus prReviews)
  = from_option Some (JsObject.get login reviewStatus) (latest_state login prReviews).
Proof.
  intros Hproto. induction prReviews as [|review prReviews IH] using rev_ind; [done |].
  rewrite foldl_snoc, record_review_get, latest_state_snoc by done.
  by destruct (decide (significant login review)).
Qed.

Lemma reviewStatus_get_proto (prReviews : list Review.t) (reviewStatus : JsObject.t string) :
  JsObject.get "__proto__" (foldl record_review reviewStatus prReviews)
  = JsObject.get "__proto__" reviewStatus.
Proof.
  induction prReviews as [|review prReviews IH] using rev_ind; [done |].
  by rewrite foldl_snoc, record_review_get_proto.
Qed.

Lemma reviewStatus_NoDup (prReviews : list Review.t) (reviewStatus : JsObject.t string) :
  NoDup (JsObject.keys reviewStatus) →
  NoDup (JsObject.keys (foldl record_review reviewStatus prReviews)).
Proof.
  intros Hnodup. induction prReviews as [|review prReviews IH] using rev_ind; [done |].
  rewrite foldl_snoc. unfold record_review at 1.
  destruct (Review.user review) as [user|]; [|done].
  destruct (decide _); [|done]. by apply JsObject_NoDup_keys_set.
Qed.

Lemma getApprovals_elem_of (login : string) (prReviews : list Review.t) :
  login ∈ getApprovals prReviews
  ↔ login ≠ "__proto__"%string ∧ latest_state login prReviews = Some "APPROVED"%string.
Proof.
  unfold getApprovals. rewrite list_elem_of_filter, JsObject_elem_of_keys.
  destruct (decide (login = "__proto__"%string)) as [->|Hproto].
  - rewrite reviewStatus_get_proto. simpl. split; [by intros [? _] | by intros [? _]].
  - rewrite reviewStatus_get by done. simpl.
    destruct (latest_state login prReviews) as [state|]; simpl.
    + split; [by intros [? _] | intros [_ ?]; eauto].
    + split; [by intros [? _] | by intros [_ ?]].
Qed.

(** A login that is ["__proto__"] is recorded nowhere, whatever it reviewed;
    the login ["constructor"] is recorded like any other. *)
Example getApprovals_proto :
  getApprovals
    [Review.mk (Some (User.mk "__proto__")) "APPROVED";
     Review.mk (Some (User.mk "constructor")) "APPROVED"]
  = ["constructor"]%string.
Proof. reflexivity. Qed.

(** The approvals come in the order [for ... in] visits the logins: array
    indices first, by value, then the other logins as they first appeared. *)
Example getApprovals_order :
  getApprovals
    [Review.mk (Some (User.mk "bob")) "APPROVED";
     Review.mk (Some (User.mk "12")) "APPROVED";
     Review.mk (Some (User.mk "al")) "APPROVED";
     Review.mk (Some (User.mk "bob")) "CHANGES_REQUESTED";
     Review.mk (Some (User.mk "3")) "APPROVED";
     Review.mk None "APPROVED";
     Review.mk (Some (User.mk "al")) "COMMENTED"]
  = ["3"; "12"; "al"]%string.
Proof. reflexivity. Qed.

Lemma getApprovals_skip (before after : list Review.t) (review : Review.t) :
  (∀ reviewStatus, record_review reviewStatus review = reviewStatus) →
  getApprovals (before ++ review :: after) = getApprovals (before ++ after).
Proof.
  intros Hskip. unfold getApprovals. rewrite !foldl_app. simpl. by rewrite Hskip.
Qed.

(** C6. A user, of any login that [reviewStatus] can hold (every login but
    ["__proto__"]), is among the approvals exactly when their most recent
    review that is not a comment has the state ["APPROVED"]; a further
    review of theirs that is not a comment decides alone whether they are
    among the approvals; a ["COMMENTED"] review, wherever it stands, changes
    nothing; and nobody is listed twice. The login ["__proto__"] is never
    among the approvals. *)
Theorem getApprovals_latest_significant_review
    (prReviews : list Review.t) (login : string) :
  (login ≠ "__proto__"%string →
   login ∈ getApprovals prReviews ↔ latest_state login prReviews = Some "APPROVED"%string)
  ∧ (∀ state,
       login ≠ "__proto__"%string →
       state ≠ "COMMENTED"%string →
       login ∈ getApprovals (prReviews ++ [Review.mk (Some (User.mk login)) state])
       ↔ state = "APPROVED"%string)
  ∧ (∀ before after user,
       getApprovals (before ++ Review.mk user "COMMENTED" :: after)
       = getApprovals (before ++ after))
  ∧ NoDup (getApprovals prReviews)
  ∧ "__proto__"%string ∉ getApprovals prReviews.
Proof.
  split_and!.
  - intros Hproto. rewrite getApprovals_elem_of. split; [by intros [_ ?] | by intros ?].
  - intros state Hproto Hstate. rewrite getApprovals_elem_of, latest_state_snoc.
    rewrite decide_True by done. simpl. split; [intros [_ ?]; congruence |].
    intros ->. by split.
  - intros before after user. apply getApprovals_skip.
    intros reviewStatus. unfold record_review. by destruct user.
  - unfold getApprovals. apply NoDup_filter, reviewStatus_NoDup, NoDup_nil_2.
  - rewrite getApprovals_elem_of. by intros [? _].
Qed.

Lemma getApprovals_latest_significant_review_example :
  ("bob"%string ∈ getApprovals [Review.mk (Some (User.mk "alice")) "CHANGES_REQUESTED";
                                Review.mk (Some (User.mk "bob")) "APPROVED";
                                Review.mk (Some (User.mk "bob")) "COMMENTED"]
   ↔ latest_state "bob"
       [Review.mk (Some (User.mk "alice")) "CHANGES_REQUESTED";
        Review.mk (Some (User.mk "bob")) "APPROVED";
        Review.mk (Some (User.mk "bob")) "COMMENTED"]
     = Some "APPROVED"%string)
  ∧ ("bob"%string ∈ getApprovals ([Review.mk (Some (User.mk "alice")) "CHANGES_REQUESTED";
                                   Review.mk (Some (User.mk "bob")) "APPROVED";
                                   Review.mk (Some (User.mk "bob")) "COMMENTED"]
                                  ++ [Review.mk (Some (User.mk "bob")) "CHANGES_REQUESTED"])
     ↔ "CHANGES_REQUESTED"%string = "APPROVED"%string).
Proof.
  destruct (getApprovals_latest_significant_review
              [Review.mk (Some (User.mk "alice")) "CHANGES_REQUESTED";
               Review.mk (Some (User.mk "bob")) "APPROVED";
               Review.mk (Some (User.mk "bob")) "COMMENTED"] "bob"%string)
    as (Hlatest & Hfurther & _).
  split; [apply Hlatest | apply Hfurther]; discriminate.
Defined.

(** C10. A review without a user leaves the recorded states as they are, so
    the approvals are those of the list without it, whatever its state. *)
Theorem getApprovals_ignores_null_user
    (before after : list Review.t) (state : string) :
  getApprovals (before ++ Review.mk None state :: after) = getApprovals (before ++ after)
  ∧ ∀ reviewStatus, record_review reviewStatus (Review.mk None state) = reviewStatus.
Proof. split; [by apply getApprovals_skip | done]. Qed.

(** * Further properties *)

(** ** More about computations *)

Lemma log_bind {A B} (m : Eff A) (f : A → Eff B) :
  log (m ≫= f) = log m ++ match value m with Return a => log (f a) | Throw _ => [] end.
Proof.
  unfold mbind, Eff_bind. destruct (value m); simpl; [done | by rewrite app_nil_r].
Qed.

(** Two outcomes that agree on [Return true] and on every [Throw] agree. *)
Lemma result_bool_eq (r1 r2 : result bool) :
  (r1 = Return true ↔ r2 = Return true) →
  (∀ e, r1 = Throw e ↔ r2 = Throw e) →
  r1 = r2.
Proof.
  intros Htrue Hthrow. destruct r1 as [[]|e1].
  - symmetry. by apply Htrue.
  - destruct r2 as [[]|e2]; [| done |].
    + by apply Htrue.
    + by apply Hthrow.
  - symmetry. by apply Hthrow.
Qed.

(** ** More about [check] *)

Section check_outcomes.

Context (reviewersConfig : Reviewers.t) (modifiedFilepaths approvals : list string).
Context (infoLog warnLog : string → effect).

Local Abbreviation reviewers := (Reviewers.reviewers reviewersConfig).
Local Abbreviation teams := (default ∅ (Reviewers.teams reviewersConfig)).
Local Abbreviation rule :=
  (check_rule reviewersConfig modifiedFilepaths approvals infoLog warnLog).

Lemma for_in_rules_Throw_inv (keys : list string) (approved : bool) (e : exn) :
  value (for_in keys rule approved) = Throw e →
  ∃ prefix, prefix ∈ keys ∧ value (rule true prefix) = Throw e.
Proof.
  revert approved. induction keys as [|k keys IH]; intros approved; simpl; [done |].
  rewrite value_bind, check_rule_flag.
  destruct (value (rule true k)) as [b|e'] eqn:Hk; simpl.
  - intros (prefix & ? & ?)%IH. exists prefix. split; [by right | done].
  - intros [= ->]. exists k. split; [left | done].
Qed.

Lemma check_rule_throws (prefix : string) (e : exn) :
  prefix ∈ JsObject.keys reviewers →
  value (rule true prefix) = Throw e
  ↔ e = TypeError ∧
    matches_some_file prefix modifiedFilepaths ∧
    ∃ conf team,
      JsObject.get prefix reviewers = Some conf ∧
      team ∈ default [] (ReviewerConfiguration.teams conf) ∧
      teams !! team = None.
Proof.
  intros [conf Hget]%JsObject_elem_of_keys. rewrite check_rule_value, Hget. simpl.
  destruct (0 <? _)%nat eqn:Hlen.
  - apply filter_startsWith_nonempty in Hlen.
    pose proof (getPossibleApprovers_spec teams conf) as Hspec.
    destruct (getPossibleApprovers conf teams) as [possible|e'] eqn:Hres; simpl.
    + split; [done |]. intros (_ & _ & conf' & team & [= <-] & Hin & Hnone).
      destruct Hspec as [Hexist _]. destruct (Hexist team Hin). congruence.
    + destruct Hspec as [-> (team & Hin & Hnone)]. split.
      * intros [= <-]. split_and!; [done.. |]. by exists conf, team.
      * by intros [-> _].
  - split; [done |]. intros (_ & Hmatch & _).
    apply filter_startsWith_nonempty in Hmatch. congruence.
Qed.

(** What an iteration logs and how it ends, case by case. *)
Lemma check_rule_cases (approved : bool) (prefix : string) :
  (¬ matches_some_file prefix modifiedFilepaths ∧ rule approved prefix = mret approved)
  ∨ matches_some_file prefix modifiedFilepaths
    ∧ ((∃ e, rule approved prefix = mkEff [] (Throw e))
       ∨ rule approved prefix
         = mkEff [infoLog (prefix +:+ " review requirements met.")] (Return approved)
       ∨ ∃ text, rule approved prefix = mkEff [warnLog text] (Return false)).
Proof.
  unfold check_rule. destruct (0 <? _)%nat eqn:Hlen.
  - apply filter_startsWith_nonempty in Hlen. right. split; [done |].
    destruct (JsObject.get prefix reviewers) as [conf|]; simpl; [|by left; eexists].
    unfold mbind, Eff_bind. simpl.
    destruct (getPossibleApprovers conf teams) as [possible|e]; simpl; [|by left; eexists].
    destruct (_ <? _); [right; right; by eexists | by right; left].
  - left. split; [|done]. intros Hmatch.
    apply filter_startsWith_nonempty in Hmatch. congruence.
Qed.

Lemma for_in_rules_log (keys : list string) (approved : bool) (entry : effect) :
  entry ∈ log (for_in keys rule approved) →
  (∃ prefix, prefix ∈ keys ∧ matches_some_file prefix modifiedFilepaths ∧
             entry = infoLog (prefix +:+ " review requirements met."))
  ∨ (∃ text, entry = warnLog text) ∧ value (for_in keys rule approved) ≠ Return true.
Proof.
  revert approved. induction keys as [|k keys IH]; intros approved; simpl.
  - by intros ?%elem_of_nil.
  - rewrite log_bind, value_bind.
    destruct (check_rule_cases approved k)
      as [[_ ->]|[Hmatch [[e ->]|[->|[text ->]]]]]; simpl.
    + intros [(prefix & ? & ? & ?)|[? ?]]%IH; [left | by right].
      exists prefix. split_and!; [by right | done..].
    + by intros ?%elem_of_nil.
    + intros [->|[(prefix & ? & ? & ?)|[? ?]]%IH]%elem_of_cons.
      * left. exists k. split_and!; [left | done..].
      * left. exists prefix. split_and!; [by right | done..].
      * by right.
    + intros Hin. assert (value (for_in keys rule false) ≠ Return true) as Hfalse.
      { rewrite for_in_rules_true. by intros [? _]. }
      apply elem_of_cons in Hin as [->|[(prefix & ? & ? & ?)|[? ?]]%IH].
      * right. split; [by eexists | done].
      * left. exists prefix. split_and!; [by right | done..].
      * by right.
Qed.

Lemma for_in_rules_warns (keys : list string) (approved : bool) :
  value (for_in keys rule approved) = Return false →
  approved = false ∨ ∃ text, warnLog text ∈ log (for_in keys rule approved).
Proof.
  revert approved. induction keys as [|k keys IH]; intros approved; simpl.
  - intros [= ->]. by left.
  - rewrite log_bind, value_bind.
    destruct (check_rule_cases approved k)
      as [[_ ->]|[Hmatch [[e ->]|[->|[text ->]]]]]; simpl; [| done | |].
    + intros [?|[text ?]]%IH; [by left | right; by exists text].
    + intros [?|[text ?]]%IH; [by left |]. right. exists text. by right.
    + intros _. right. exists text. left.
Qed.

End check_outcomes.

(** ** The loop of [check], compared across inputs *)

Lemma for_in_value_mono {S} (body body' : S → string → Eff S) (keys : list string) (s r : S) :
  (∀ s k r, k ∈ keys → value (body s k) = Return r → value (body' s k) = Return r) →
  value (for_in keys body s) = Return r →
  value (for_in keys body' s) = Return r.
Proof.
  revert s. induction keys as [|k keys IH]; intros s Hbody; simpl; [done |].
  rewrite !value_bind.
  destruct (value (body s k)) as [s'|e] eqn:Hk; simpl; [|done].
  rewrite (Hbody s k s' (list_elem_of_here _ _) Hk). simpl.
  apply IH. intros s0 k0 r0 Hin. apply Hbody. by right.
Qed.

Lemma for_in_value_ext {S} (body body' : S → string → Eff S) (keys : list string) (s : S) :
  (∀ s k, k ∈ keys → value (body s k) = value (body' s k)) →
  value (for_in keys body s) = value (for_in keys body' s).
Proof.
  revert s. induction keys as [|k keys IH]; intros s Hbody; simpl; [done |].
  rewrite !value_bind, <- (Hbody s k (list_elem_of_here _ _)).
  destruct (value (body s k)) as [s'|e]; simpl; [|done].
  apply IH. intros s0 k0 Hin. apply Hbody. by right.
Qed.

Lemma filter_submseteq {A} (P : A → Prop) `{!∀ x, Decision (P x)} (l k : list A) :
  l ⊆+ k → filter P l ⊆+ filter P k.
Proof.
  induction 1 as [|x l k _ IH|x y l|x l k _ IH|l k m _ IH1 _ IH2];
    rewrite ?filter_cons; repeat case_decide;
    try done; try (by constructor); try (by etrans).
Qed.

Lemma relevant_count_submseteq
    (possibleApprovers : gset string) (approvals approvals' : list string) :
  approvals ⊆+ approvals' →
  (relevant_count possibleApprovers approvals ≤ relevant_count possibleApprovers approvals')%nat.
Proof. intros Hsub. unfold relevant_count. by apply submseteq_length, filter_submseteq. Qed.

(** Approvals without repetition cannot outnumber the approvers. *)
Lemma relevant_count_NoDup (possibleApprovers : gset string) (approvals : list string) :
  NoDup approvals →
  (relevant_count possibleApprovers approvals ≤ size possibleApprovers)%nat.
Proof.
  intros Hnodup. unfold relevant_count, size, set_size. simpl.
  apply submseteq_length, NoDup_submseteq; [by apply NoDup_filter |].
  intros user [Hin _]%list_elem_of_filter. by apply elem_of_elements.
Qed.

Lemma matches_some_file_shorter (prefix rest : string) (files : list string) :
  matches_some_file (prefix +:+ rest) files → matches_some_file prefix files.
Proof.
  intros (file & rest' & Hin & ->). exists ((prefix +:+ rest) +:+ rest'), (rest +:+ rest').
  split; [done |]. clear. induction prefix as [|a prefix IH]; [done |].
  rewrite !append_String. by rewrite IH.
Qed.

Lemma JsObject_get_Some_elem_of {V} (k : string) (v : V) (o : JsObject.t V) :
  NoDup (JsObject.keys o) → JsObject.get k o = Some v ↔ (k, v) ∈ o.
Proof.
  unfold JsObject.keys. induction o as [|[k' v'] o IH]; simpl.
  - intros _. split; [done | by intros ?%elem_of_nil].
  - intros [Hfresh Hnodup]%NoDup_cons. simpl in Hfresh.
    rewrite elem_of_cons. destruct (decide (k' = k)) as [->|Hne].
    + split; [intros [= ->]; by left |]. intros [[= ->]|Hin]; [done |].
      destruct Hfresh. by apply (list_elem_of_fmap_2 fst) in Hin.
    + rewrite (IH Hnodup). split; [by right | intros [[= ? ?]|?]; [congruence | done]].
Qed.

(** A lookup does not depend on where the property stands. *)
Lemma JsObject_get_Permutation {V} (k : string) (o o' : JsObject.t V) :
  NoDup (JsObject.keys o) → o ≡ₚ o' → JsObject.get k o = JsObject.get k o'.
Proof.
  intros Hnodup Hperm.
  assert (NoDup (JsObject.keys o')) as Hnodup'.
  { unfold JsObject.keys in *. by rewrite <- Hperm. }
  apply option_eq. intros v.
  rewrite !JsObject_get_Some_elem_of by done. by rewrite Hperm.
Qed.

(** ** What [check] guarantees beyond its verdict *)

(** X1. [check] throws exactly when some rule whose prefix matches a modified
    file names a team that the roster lacks, and the exception is then a
    [TypeError]. *)
Theorem check_throws_iff_matched_rule_unresolved
    (reviewersConfig : Reviewers.t) (modifiedFilepaths approvals : list string)
    (infoLog warnLog : string → effect) (e : exn) :
  value (check reviewersConfig modifiedFilepaths approvals infoLog warnLog) = Throw e
  ↔ e = TypeError ∧
    ∃ prefix conf team,
      JsObject.get prefix (Reviewers.reviewers reviewersConfig) = Some conf ∧
      matches_some_file prefix modifiedFilepaths ∧
      team ∈ default [] (ReviewerConfiguration.teams conf) ∧
      default ∅ (Reviewers.teams reviewersConfig) !! team = None.
Proof.
  unfold check. split.
  - intros (prefix & Hin & Hthrow)%for_in_rules_Throw_inv.
    apply check_rule_throws in Hthrow as (-> & Hmatch & conf & team & ? & ? & ?); [|done].
    split; [done |]. by exists prefix, conf, team.
  - intros (-> & prefix & conf & team & Hget & Hmatch & Hin & Hnone).
    assert (prefix ∈ JsObject.keys (Reviewers.reviewers reviewersConfig)) as Hkey.
    { apply JsObject_elem_of_keys. by rewrite Hget. }
    apply for_in_rules_Throw with (prefix := prefix) (e := TypeError); [done |].
    apply check_rule_throws; [done |]. split_and!; [done.. |]. by exists conf, team.
Qed.

(** X2. When the two callbacks cannot be mistaken for one another, [check]
    returns [false] exactly when it has logged a warning; and when it
    returns [true], all it has logged is one "requirements met" line for
    rules that matched. *)
Theorem check_rejects_with_warning
    (reviewersConfig : Reviewers.t) (modifiedFilepaths approvals : list string)
    (infoLog warnLog : string → effect) (approved : bool) :
  (∀ message text, infoLog message ≠ warnLog text) →
  value (check reviewersConfig modifiedFilepaths approvals infoLog warnLog) = Return approved →
  (approved = false
   ↔ ∃ text, warnLog text
             ∈ log (check reviewersConfig modifiedFilepaths approvals infoLog warnLog))
  ∧ (approved = true →
     ∀ entry,
       entry ∈ log (check reviewersConfig modifiedFilepaths approvals infoLog warnLog) →
       ∃ prefix,
         prefix ∈ JsObject.keys (Reviewers.reviewers reviewersConfig) ∧
         matches_some_file prefix modifiedFilepaths ∧
         entry = infoLog (prefix +:+ " review requirements met.")).
Proof.
  intros Hdistinct Hvalue. unfold check in *. split; [split |].
  - intros ->. by apply for_in_rules_warns in Hvalue as [?|?].
  - intros [text Hin]. apply for_in_rules_log in Hin as [(prefix & _ & _ & Heq)|[_ Hne]].
    + by destruct (Hdistinct _ _ (eq_sym Heq)).
    + destruct approved; congruence.
  - intros -> entry Hin. by apply for_in_rules_log in Hin as [?|[_ ?]].
Qed.

Lemma check_rejects_with_warning_example :
  false = false
  ↔ ∃ text, core_warning text
            ∈ log (check Scenario.policyA ["src/a.ts"%string] [] core_info core_warning).
Proof.
  apply (check_rejects_with_warning Scenario.policyA ["src/a.ts"%string] []
           core_info core_warning false); [discriminate | reflexivity].
Defined.

(** X3. The verdict of [check] (or its exception) depends on which files
    were modified, not on their order or repetition, on the approvals up to
    their order, and not on the logging callbacks. *)
Theorem check_ignores_order
    (reviewersConfig : Reviewers.t) (modifiedFilepaths modifiedFilepaths' : list string)
    (approvals approvals' : list string) (infoLog warnLog infoLog' warnLog' : string → effect) :
  (∀ file, file ∈ modifiedFilepaths ↔ file ∈ modifiedFilepaths') →
  approvals ≡ₚ approvals' →
  value (check reviewersConfig modifiedFilepaths approvals infoLog warnLog)
  = value (check reviewersConfig modifiedFilepaths' approvals' infoLog' warnLog').
Proof.
  intros Hfiles Happrovals. unfold check. apply for_in_value_ext.
  intros approved prefix _. rewrite !check_rule_value.
  assert ((0 <? length (filter (λ file, startsWith file prefix = true) modifiedFilepaths))%nat
          = (0 <? length (filter (λ file, startsWith file prefix = true) modifiedFilepaths'))%nat)
    as ->.
  { apply eq_true_iff_eq. rewrite !filter_startsWith_nonempty. unfold matches_some_file.
    by setoid_rewrite Hfiles. }
  destruct (0 <? _)%nat; [|done].
  destruct (JsObject.get prefix _) as [conf|]; simpl; [|done].
  destruct (getPossibleApprovers _ _) as [possible|e]; simpl; [|done].
  unfold relevant_count. by rewrite Happrovals.
Qed.

Lemma check_ignores_order_example :
  value (check Scenario.policyA ["src/a.ts"; "README"]%string ["carol"; "bob"]%string
           core_info core_warning)
  = value (check Scenario.policyA ["README"; "src/a.ts"; "README"]%string
             ["bob"; "carol"]%string core_warning core_info).
Proof.
  apply check_ignores_order.
  - intros file. rewrite !elem_of_cons, !elem_of_nil. tauto.
  - apply Permutation_swap.
Defined.

(** X4. As long as no prefix is listed twice, the order of the rules in the
    [reviewers] mapping does not change the verdict of [check] (or its
    exception); neither do the overrides of the policy. *)
Theorem check_ignores_rule_order
    (reviewersConfig reviewersConfig' : Reviewers.t)
    (modifiedFilepaths approvals : list string) (infoLog warnLog : string → effect) :
  NoDup (JsObject.keys (Reviewers.reviewers reviewersConfig)) →
  Reviewers.reviewers reviewersConfig ≡ₚ Reviewers.reviewers reviewersConfig' →
  Reviewers.teams reviewersConfig = Reviewers.teams reviewersConfig' →
  value (check reviewersConfig modifiedFilepaths approvals infoLog warnLog)
  = value (check reviewersConfig' modifiedFilepaths approvals infoLog warnLog).
Proof.
  intros Hnodup Hperm Hteams. unfold check.
  assert (∀ prefix, prefix ∈ JsObject.keys (Reviewers.reviewers reviewersConfig)
                    ↔ prefix ∈ JsObject.keys (Reviewers.reviewers reviewersConfig')) as Hkeys.
  { intros prefix. unfold JsObject.keys. by rewrite Hperm. }
  transitivity (value (for_in (JsObject.keys (Reviewers.reviewers reviewersConfig'))
                         (check_rule reviewersConfig modifiedFilepaths approvals
                            infoLog warnLog) true)).
  - apply result_bool_eq.
    + rewrite !for_in_rules_true. by setoid_rewrite Hkeys.
    + intros e. split.
      * intros (prefix & Hin & Hthrow)%for_in_rules_Throw_inv.
        rewrite (check_rule_Throw _ _ _ _ _ _ _ _ Hthrow) in *.
        eapply for_in_rules_Throw; [by apply Hkeys | done].
      * intros (prefix & Hin & Hthrow)%for_in_rules_Throw_inv.
        rewrite (check_rule_Throw _ _ _ _ _ _ _ _ Hthrow) in *.
        eapply for_in_rules_Throw; [by apply Hkeys | done].
  - apply for_in_value_ext. intros approved prefix _.
    rewrite !check_rule_value, Hteams.
    by rewrite (JsObject_get_Permutation prefix _ _ Hnodup Hperm).
Qed.

Lemma check_ignores_rule_order_example :
  value (check Scenario.policy_free ["docs/a.md"; "src/a.ts"]%string [] core_info core_warning)
  = value (check
             (Reviewers.mk None
                [("src/"%string, Scenario.src_rule); ("docs/"%string, Scenario.free_rule)]
                (Some []))
             ["docs/a.md"; "src/a.ts"]%string [] core_info core_warning).
Proof.
  apply check_ignores_rule_order.
  - apply NoDup_cons. split; [|apply NoDup_singleton].
    intros Hin%list_elem_of_singleton. discriminate Hin.
  - apply Permutation_swap.
  - reflexivity.
Defined.

(** X5. Further approvals never turn an approved change into a rejected
    one: if [check] returns [true], it still does when approvals are added. *)
Theorem check_monotone_in_approvals
    (reviewersConfig : Reviewers.t) (modifiedFilepaths approvals approvals' : list string)
    (infoLog warnLog : string → effect) :
  approvals ⊆+ approvals' →
  value (check reviewersConfig modifiedFilepaths approvals infoLog warnLog) = Return true →
  value (check reviewersConfig modifiedFilepaths approvals' infoLog warnLog) = Return true.
Proof.
  intros Hsub. unfold check. rewrite !for_in_rules_true.
  intros [_ Hall]. split; [done |].
  intros prefix Hin. specialize (Hall prefix Hin).
  pose proof Hin as [conf Hget]%JsObject_elem_of_keys.
  rewrite check_rule_passes in Hall by done. rewrite check_rule_passes by done.
  intros Hmatch. destruct (Hall Hmatch) as (possible & Hres & Hle).
  exists possible. split; [done |].
  pose proof (relevant_count_submseteq possible _ _ Hsub). lia.
Qed.

Lemma check_monotone_in_approvals_example :
  value (check Scenario.policyA ["src/a.ts"%string] ["alice"; "bob"]%string
           core_info core_warning)
  = Return true.
Proof.
  apply (check_monotone_in_approvals Scenario.policyA ["src/a.ts"%string] ["bob"%string]).
  - apply submseteq_cons. reflexivity.
  - reflexivity.
Defined.

(** Leaving files out of a change does not undo its approval. *)
Lemma check_true_fewer_files
    (reviewersConfig : Reviewers.t) (modifiedFilepaths modifiedFilepaths' approvals : list string)
    (infoLog warnLog : string → effect) :
  (∀ file, file ∈ modifiedFilepaths' → file ∈ modifiedFilepaths) →
  value (check reviewersConfig modifiedFilepaths approvals infoLog warnLog) = Return true →
  value (check reviewersConfig modifiedFilepaths' approvals infoLog warnLog) = Return true.
Proof.
  intros Hsub. unfold check. rewrite !for_in_rules_true.
  intros [_ Hall]. split; [done |].
  intros prefix Hin. specialize (Hall prefix Hin).
  pose proof Hin as [conf Hget]%JsObject_elem_of_keys.
  rewrite check_rule_passes in Hall by done. rewrite check_rule_passes by done.
  intros (file & rest & Hfile & ->). apply Hall. exists (prefix +:+ rest), rest. auto.
Qed.

(** X6. A change that touches fewer files is approved whenever the larger
    change is: if [check] returns [true] for a list of modified files, it
    returns [true] for every list drawn from them. *)
Theorem check_antitone_in_files
    (reviewersConfig : Reviewers.t) (modifiedFilepaths modifiedFilepaths' approvals : list string)
    (infoLog warnLog : string → effect) :
  (∀ file, file ∈ modifiedFilepaths' → file ∈ modifiedFilepaths) →
  value (check reviewersConfig modifiedFilepaths approvals infoLog warnLog) = Return true →
  value (check reviewersConfig modifiedFilepaths' approvals infoLog warnLog) = Return true.
Proof. apply check_true_fewer_files. Qed.

Lemma check_antitone_in_files_example :
  value (check Scenario.policy_free ["docs/a.md"%string] []
           core_info core_warning)
  = Return true.
Proof.
  apply (check_antitone_in_files Scenario.policy_free ["docs/a.md"; "LICENSE"]%string).
  - intros file Hin. apply list_elem_of_singleton in Hin as ->. left.
  - reflexivity.
Defined.

(** With no modified file, no rule is looked at. *)
Lemma check_no_files
    (reviewersConfig : Reviewers.t) (approvals : list string)
    (infoLog warnLog : string → effect) :
  check reviewersConfig [] approvals infoLog warnLog = mkEff [] (Return true).
Proof.
  unfold check. generalize true.
  induction (JsObject.keys (Reviewers.reviewers reviewersConfig)) as [|k keys IH];
    intros approved; simpl; [done |].
  unfold mbind, Eff_bind. simpl. by rewrite IH.
Qed.

(** X7. A change without modified files is approved by every policy, without
    a log line and without an exception, whatever teams its rules name. *)
Theorem check_empty_change
    (reviewersConfig : Reviewers.t) (approvals : list string)
    (infoLog warnLog : string → effect) :
  check reviewersConfig [] approvals infoLog warnLog = mkEff [] (Return true).
Proof. apply check_no_files. Qed.

(** X8. Rules add up: when a file matches a prefix it matches every shorter
    prefix too, so an approved change has met the rule of the longer prefix
    and the rule of the shorter one. *)
Theorem check_rules_cumulative
    (reviewersConfig : Reviewers.t) (modifiedFilepaths approvals : list string)
    (infoLog warnLog : string → effect)
    (prefix rest : string) (conf conf' : ReviewerConfiguration.t) :
  JsObject.get prefix (Reviewers.reviewers reviewersConfig) = Some conf →
  JsObject.get (prefix +:+ rest) (Reviewers.reviewers reviewersConfig) = Some conf' →
  matches_some_file (prefix +:+ rest) modifiedFilepaths →
  value (check reviewersConfig modifiedFilepaths approvals infoLog warnLog) = Return true →
  rule_met (default ∅ (Reviewers.teams reviewersConfig)) approvals conf
  ∧ rule_met (default ∅ (Reviewers.teams reviewersConfig)) approvals conf'.
Proof.
  intros Hget Hget' Hmatch. unfold check. rewrite for_in_rules_true. intros [_ Hall].
  split.
  - eapply check_rule_passes; [done | | by eapply matches_some_file_shorter].
    apply Hall, JsObject_elem_of_keys. by rewrite Hget.
  - eapply check_rule_passes; [done | | done].
    apply Hall, JsObject_elem_of_keys. by rewrite Hget'.
Qed.

Lemma check_rules_cumulative_example :
  rule_met ∅ ["bob"; "carol"]%string Scenario.src_rule
  ∧ rule_met ∅ ["bob"; "carol"]%string
      (ReviewerConfiguration.mk None None (Some ["carol"]%string) 1).
Proof.
  apply (check_rules_cumulative Sample.policy_nested ["src/core/a.ts"%string]
           ["bob"; "carol"]%string core_info core_warning "src/"%string "core/"%string).
  - reflexivity.
  - reflexivity.
  - exists "src/core/a.ts"%string, "a.ts"%string. split; [left | reflexivity].
  - reflexivity.
Defined.

(** X9. The approvals that [getApprovals] derives name nobody twice, so a
    rule that asks for more approvals than its approver set has members is
    never met: a change that matches it is not approved by [check], whatever
    the reviews are. *)
Theorem check_rule_beyond_reach
    (reviewersConfig : Reviewers.t) (modifiedFilepaths : list string)
    (prReviews : list Review.t) (infoLog warnLog : string → effect)
    (prefix : string) (conf : ReviewerConfiguration.t) (possibleApprovers : gset string) :
  JsObject.get prefix (Reviewers.reviewers reviewersConfig) = Some conf →
  matches_some_file prefix modifiedFilepaths →
  getPossibleApprovers conf (default ∅ (Reviewers.teams reviewersConfig))
    = Return possibleApprovers →
  Z.of_nat (size possibleApprovers) < ReviewerConfiguration.requiredApproverCount conf →
  value (check reviewersConfig modifiedFilepaths (getApprovals prReviews) infoLog warnLog)
  ≠ Return true.
Proof.
  intros Hget Hmatch Hres Hsize.
  assert (NoDup (getApprovals prReviews)) as Hnodup.
  { unfold getApprovals. apply NoDup_filter, reviewStatus_NoDup, NoDup_nil_2. }
  pose proof (relevant_count_NoDup possibleApprovers _ Hnodup) as Hcount.
  assert (prefix ∈ JsObject.keys (Reviewers.reviewers reviewersConfig)) as Hkey.
  { apply JsObject_elem_of_keys. by rewrite Hget. }
  unfold check. rewrite for_in_rules_true. intros [_ Hall].
  specialize (Hall prefix Hkey). rewrite check_rule_passes in Hall by done.
  destruct (Hall Hmatch) as (possible' & Hres' & Hle).
  rewrite Hres in Hres'. injection Hres' as <-. lia.
Qed.

Lemma check_rule_beyond_reach_example :
  value (check Sample.policy_greedy ["src/a.ts"%string]
           (getApprovals [Review.mk (Some (User.mk "alice")) "APPROVED";
                          Review.mk (Some (User.mk "bob")) "APPROVED";
                          Review.mk (Some (User.mk "alice")) "APPROVED"])
           core_info core_warning)
  ≠ Return true.
Proof.
  apply (check_rule_beyond_reach Sample.policy_greedy ["src/a.ts"%string] _
           core_info core_warning "src/"%string Sample.greedy_rule
           {[ "alice"; "bob" ]}%string).
  - reflexivity.
  - exists "src/a.ts"%string, "a.ts"%string. split; [left | reflexivity].
  - vm_compute. reflexivity.
  - vm_compute. reflexivity.
Defined.

(** X10. Adding teams to the roster changes nothing for rules that already
    resolved: [getPossibleApprovers] returns the same set, and a verdict that
    [check] returned stays as it was. *)
Theorem roster_extension_keeps_verdict
    (reviewersConfig reviewersConfig' : Reviewers.t)
    (modifiedFilepaths approvals : list string) (infoLog warnLog : string → effect) :
  Reviewers.reviewers reviewersConfig' = Reviewers.reviewers reviewersConfig →
  default ∅ (Reviewers.teams reviewersConfig)
    ⊆ default ∅ (Reviewers.teams reviewersConfig') →
  (∀ conf possibleApprovers,
     getPossibleApprovers conf (default ∅ (Reviewers.teams reviewersConfig))
       = Return possibleApprovers →
     getPossibleApprovers conf (default ∅ (Reviewers.teams reviewersConfig'))
       = Return possibleApprovers)
  ∧ (∀ approved,
       value (check reviewersConfig modifiedFilepaths approvals infoLog warnLog)
         = Return approved →
       value (check reviewersConfig' modifiedFilepaths approvals infoLog warnLog)
         = Return approved).
Proof.
  intros Hrules Hsub.
  assert (∀ conf possible,
    getPossibleApprovers conf (default ∅ (Reviewers.teams reviewersConfig)) = Return possible →
    getPossibleApprovers conf (default ∅ (Reviewers.teams reviewersConfig')) = Return possible)
    as Hresolve.
  { intros conf possible Hres.
    pose proof (getPossibleApprovers_spec (default ∅ (Reviewers.teams reviewersConfig)) conf)
      as Hspec.
    rewrite Hres in Hspec. destruct Hspec as [Hexist Hmem].
    assert (teams_exist (default ∅ (Reviewers.teams reviewersConfig')) conf) as Hexist'.
    { intros team [members Hlook]%Hexist. exists members. by eapply lookup_weaken. }
    destruct (getPossibleApprovers_Return _ conf Hexist') as [possible' Hres'].
    pose proof (getPossibleApprovers_spec (default ∅ (Reviewers.teams reviewersConfig')) conf)
      as Hspec'.
    rewrite Hres' in Hspec'. destruct Hspec' as [_ Hmem'].
    rewrite Hres'. f_equal. apply set_eq. intros user. rewrite Hmem, Hmem'.
    unfold may_approve. split.
    - intros [?|(team & members' & Hin & Hlook' & Huser)]; [by left | right].
      destruct (Hexist team Hin) as [members Hlook].
      pose proof (lookup_weaken _ _ _ _ Hlook Hsub) as Hlook''.
      exists team, members. split_and!; [done.. |]. congruence.
    - intros [?|(team & members & Hin & Hlook & Huser)]; [by left | right].
      exists team, members. split_and!; [done | by eapply lookup_weaken | done]. }
  split; [done |]. intros approved. unfold check. rewrite Hrules.
  apply for_in_value_mono. intros a prefix r _.
  rewrite !check_rule_value, Hrules.
  destruct (0 <? _)%nat; [|done].
  destruct (JsObject.get prefix _) as [conf|]; simpl; [|done].
  destruct (getPossibleApprovers conf (default ∅ (Reviewers.teams reviewersConfig)))
    as [possible|e] eqn:Hres; simpl; [|done].
  by rewrite (Hresolve conf possible Hres).
Qed.

Lemma roster_extension_keeps_verdict_example :
  value (check (Sample.policy_core Scenario.roster) ["src/a.ts"%string] ["bob"%string]
           core_info core_warning)
  = Return true.
Proof.
  apply (roster_extension_keeps_verdict (Sample.policy_core Sample.core_roster)
           (Sample.policy_core Scenario.roster)).
  - reflexivity.
  - simpl. apply insert_mono. apply map_empty_subseteq.
  - reflexivity.
Defined.

(** ** More about [every] and [some] *)

Section iteration_outcomes.

Context {A : Type} (f : A → result bool).

Lemma some_app (l k : list A) :
  some f (l ++ k) = b ← some f l; if b : bool then Return true else some f k.
Proof.
  induction l as [|x l IH]; simpl; [done |].
  destruct (f x) as [[]|e]; simpl; [done | apply IH | done].
Qed.

Lemma some_Throw (l : list A) (e : exn) :
  some f l = Throw e → ∃ x, x ∈ l ∧ f x = Throw e.
Proof.
  induction l as [|x l IH]; simpl; [done |].
  destruct (f x) as [[]|e'] eqn:Hx; simpl; [done | |].
  - intros (y & ? & ?)%IH. exists y. split; [by right | done].
  - intros [= ->]. exists x. split; [left | done].
Qed.

Lemma every_Throw (l : list A) (e : exn) :
  every f l = Throw e → ∃ x, x ∈ l ∧ f x = Throw e.
Proof.
  induction l as [|x l IH]; simpl; [done |].
  destruct (f x) as [[]|e'] eqn:Hx; simpl; [| done |].
  - intros (y & ? & ?)%IH. exists y. split; [by right | done].
  - intros [= ->]. exists x. split; [left | done].
Qed.

Lemma some_all_false (l : list A) :
  (∀ x, x ∈ l → f x = Return false) → some f l = Return false.
Proof.
  induction l as [|x l IH]; simpl; intros Hall; [done |].
  rewrite (Hall x (list_elem_of_here _ _)). simpl.
  apply IH. intros y Hy. apply Hall. by right.
Qed.

End iteration_outcomes.

(** ** More about [checkOverride] *)

Section override_outcomes.

Context (RegExp : string → option (string → bool)).

Lemma criteria_satisfied_Throw (modifiedFilePaths : list string)
    (modifiedByUsers : list (option string)) (crit : OverrideCriteria.t) (e : exn) :
  criteria_satisfied RegExp modifiedFilePaths modifiedByUsers crit = Throw e →
  e = SyntaxError ∧
  users_clause crit modifiedByUsers ∧
  ∃ patterns pattern file,
    OverrideCriteria.onlyModifiedFileRegExs crit = Some patterns ∧
    pattern ∈ patterns ∧ RegExp pattern = None ∧ file ∈ modifiedFilePaths.
Proof.
  unfold criteria_satisfied, users_clause.
  destruct (OverrideCriteria.onlyModifiedFileRegExs crit) as [patterns|];
    [|by destruct (OverrideCriteria.onlyModifiedByUsers crit)].
  intros Hthrow.
  assert (every (λ file, some (λ pattern, RegExp_test RegExp pattern file) patterns)
            modifiedFilePaths = Throw e
          ∧ ∀ allowed, OverrideCriteria.onlyModifiedByUsers crit = Some allowed →
              ∀ committer, committer ∈ modifiedByUsers →
                ∃ user, committer = Some user ∧ user ∈ allowed) as [Hevery Husers].
  { destruct (OverrideCriteria.onlyModifiedByUsers crit) as [users|]; simpl in Hthrow;
      [|by split].
    destruct (forallb _ _) eqn:Hall; [|done]. split; [done |].
    intros ? [= <-]. by apply committers_allowed. }
  apply every_Throw in Hevery as (file & Hfile & Hsome).
  apply some_Throw in Hsome as (pattern & Hpattern & Htest).
  unfold RegExp_test in Htest. destruct (RegExp pattern) eqn:Hre; [done |].
  injection Htest as <-. split_and!; [done.. |]. by exists patterns, pattern, file.
Qed.

(** An unresolved committer defeats an entry that restricts the committers,
    before any of its patterns is compiled. *)
Lemma criteria_satisfied_unresolved (modifiedFilePaths : list string)
    (modifiedByUsers : list (option string)) (crit : OverrideCriteria.t) :
  None ∈ modifiedByUsers →
  is_Some (OverrideCriteria.onlyModifiedByUsers crit) →
  criteria_satisfied RegExp modifiedFilePaths modifiedByUsers crit = Return false.
Proof.
  intros Hnone [users Husers]. unfold criteria_satisfied. rewrite Husers.
  assert (forallb (committer_allowed (list_to_set users)) modifiedByUsers = false) as ->.
  { apply not_true_is_false. rewrite committers_allowed. intros Hall.
    by destruct (Hall None Hnone) as (user & ? & _). }
  simpl. by destruct (OverrideCriteria.onlyModifiedFileRegExs crit).
Qed.

(** A satisfied entry stays satisfied when files or committers are left out. *)
Lemma checkOverride_true_smaller (overrides : list OverrideCriteria.t)
    (modifiedFilePaths modifiedFilePaths' : list string)
    (modifiedByUsers modifiedByUsers' : list (option string)) :
  patterns_compile RegExp overrides →
  (∀ file, file ∈ modifiedFilePaths' → file ∈ modifiedFilePaths) →
  (∀ committer, committer ∈ modifiedByUsers' → committer ∈ modifiedByUsers) →
  checkOverride RegExp overrides modifiedFilePaths modifiedByUsers = Return true →
  checkOverride RegExp overrides modifiedFilePaths' modifiedByUsers' = Return true.
Proof.
  intros Hcompile Hfiles Hcommitters (crit & Hin & Husers & Hpatterns)%checkOverride_true.
  destruct (checkOverride_returns RegExp modifiedFilePaths' modifiedByUsers' overrides Hcompile)
    as (b & -> & Hb).
  f_equal. apply Hb. exists crit. split; [done |]. split.
  - intros allowed Hsome committer Hc. eapply Husers; eauto.
  - intros patterns Hsome file Hf. eapply Hpatterns; eauto.
Qed.

End override_outcomes.

(** X11. [checkOverride] tries the entries in order: on a list made of two
    parts it answers [true] as soon as the first part does, without looking
    at the second, and otherwise answers as the second part does. *)
Theorem checkOverride_app
    (RegExp : string → option (string → bool))
    (overrides overrides' : list OverrideCriteria.t)
    (modifiedFilePaths : list string) (modifiedByUsers : list (option string)) :
  checkOverride RegExp (overrides ++ overrides') modifiedFilePaths modifiedByUsers
  = waived ← checkOverride RegExp overrides modifiedFilePaths modifiedByUsers;
    if waived : bool then Return true
    else checkOverride RegExp overrides' modifiedFilePaths modifiedByUsers.
Proof. apply some_app. Qed.

(** X12. [checkOverride] throws nothing but a [SyntaxError], and only when
    there is a modified file and an entry, with its committers clause
    satisfied, that holds a pattern the engine rejects. *)
Theorem checkOverride_throws_on_malformed_pattern
    (RegExp : string → option (string → bool))
    (overrides : list OverrideCriteria.t)
    (modifiedFilePaths : list string) (modifiedByUsers : list (option string)) (e : exn) :
  checkOverride RegExp overrides modifiedFilePaths modifiedByUsers = Throw e →
  e = SyntaxError ∧
  modifiedFilePaths ≠ [] ∧
  ∃ crit patterns pattern,
    crit ∈ overrides ∧
    users_clause crit modifiedByUsers ∧
    OverrideCriteria.onlyModifiedFileRegExs crit = Some patterns ∧
    pattern ∈ patterns ∧
    RegExp pattern = None.
Proof.
  intros (crit & Hin & Hthrow)%some_Throw.
  apply criteria_satisfied_Throw
    in Hthrow as (-> & Husers & patterns & pattern & file & ? & ? & ? & Hfile).
  split_and!; [done | by intros -> ; apply elem_of_nil in Hfile |].
  by exists crit, patterns, pattern.
Qed.

Lemma checkOverride_throws_on_malformed_pattern_example :
  SyntaxError = SyntaxError ∧
  ["src/a.ts"%string] ≠ [] ∧
  ∃ crit patterns pattern,
    crit ∈ [Sample.malformed; Sample.wildcard] ∧
    users_clause crit [] ∧
    OverrideCriteria.onlyModifiedFileRegExs crit = Some patterns ∧
    pattern ∈ patterns ∧
    anchored_literal pattern = None.
Proof.
  apply (checkOverride_throws_on_malformed_pattern anchored_literal
           [Sample.malformed; Sample.wildcard] ["src/a.ts"%string] [] SyntaxError).
  reflexivity.
Defined.

(** X13. A policy that lists an entry without any clause rejects nothing:
    provided the patterns of its entries compile, [run] approves every change
    on which [check] returns at all. *)
Theorem run_with_wildcard_override
    (RegExp : string → option (string → bool)) (postReview : bool)
    (reviewersConfig : Reviewers.t) (modifiedFilepaths approvals : list string)
    (committers : list (option string))
    (overrides : list OverrideCriteria.t) (crit : OverrideCriteria.t) (approved : bool) :
  Reviewers.overrides reviewersConfig = Some overrides →
  patterns_compile RegExp overrides →
  crit ∈ overrides →
  OverrideCriteria.onlyModifiedByUsers crit = None →
  OverrideCriteria.onlyModifiedFileRegExs crit = None →
  value (check reviewersConfig modifiedFilepaths approvals core_info core_warning)
    = Return approved →
  value (run RegExp postReview reviewersConfig modifiedFilepaths approvals committers)
    = Return true.
Proof.
  intros Hoverrides Hcompile Hin Husers Hpatterns Hcheck.
  rewrite run_value, Hcheck, Hoverrides. simpl. destruct approved; [done |].
  destruct (checkOverride_returns RegExp modifiedFilepaths committers overrides Hcompile)
    as (b & -> & Hb).
  f_equal. apply Hb. exists crit. split; [done |].
  split; intros ? Hsome; congruence.
Qed.

Lemma run_with_wildcard_override_example :
  value (run anchored_literal true
           (Reviewers.mk None [("src/"%string, Scenario.src_rule)]
              (Some [Override.docs_only; Sample.wildcard]))
           ["src/a.ts"%string] [] [None])
  = Return true.
Proof.
  apply (run_with_wildcard_override anchored_literal true _ _ _ _
           [Override.docs_only; Sample.wildcard] Sample.wildcard false).
  - reflexivity.
  - intros crit patterns pattern Hcrit Hpatterns Hpattern.
    apply elem_of_cons in Hcrit as [->|Hcrit].
    + injection Hpatterns as <-. apply list_elem_of_singleton in Hpattern as ->. by eexists.
    + apply list_elem_of_singleton in Hcrit as ->. discriminate Hpatterns.
  - right. left.
  - reflexivity.
  - reflexivity.
  - reflexivity.
Defined.

(** X14. One commit without a known committer is enough to defeat every
    entry that restricts the committers: when all entries do, [checkOverride]
    returns [false] on what [getCommiters] yields, whatever the patterns and
    the modified files are. *)
Theorem checkOverride_unresolved_committer
    (RegExp : string → option (string → bool))
    (overrides : list OverrideCriteria.t)
    (modifiedFilePaths : list string) (commits : list Commit.t) (commit : Commit.t) :
  commit ∈ commits →
  Commit.committer commit = None →
  (∀ crit, crit ∈ overrides → is_Some (OverrideCriteria.onlyModifiedByUsers crit)) →
  checkOverride RegExp overrides modifiedFilePaths (getCommiters commits) = Return false.
Proof.
  intros Hin Hnone Hall. apply some_all_false. intros crit Hcrit.
  apply criteria_satisfied_unresolved; [|by apply Hall].
  unfold getCommiters. apply list_elem_of_fmap. exists commit. by rewrite Hnone.
Qed.

Lemma checkOverride_unresolved_committer_example :
  checkOverride anchored_literal
    [Override.bot_only; OverrideCriteria.mk None (Some []) (Some ["("]%string)]
    ["src/a.ts"%string]
    (getCommiters [Commit.mk (Some (User.mk "bot")); Commit.mk None])
  = Return false.
Proof.
  apply (checkOverride_unresolved_committer anchored_literal _ _ _ (Commit.mk None)).
  - right. left.
  - reflexivity.
  - intros crit Hcrit. apply elem_of_cons in Hcrit as [->|Hcrit]; [by eexists |].
    apply list_elem_of_singleton in Hcrit as ->. by eexists.
Defined.

(** X15. What the GitHub API cuts off cannot cause a rejection: when the
    lists of files and of commits are truncated, [check] still returns
    [true] if it did on the full list of files, and, the patterns compiling,
    so does [checkOverride]. *)
Theorem truncated_responses_stay_approved
    (RegExp : string → option (string → bool))
    (reviewersConfig : Reviewers.t) (overrides : list OverrideCriteria.t)
    (allPrFiles : list File.t) (commits : list Commit.t) (approvals : list string)
    (infoLog warnLog : string → effect) (n m : nat) :
  (value (check reviewersConfig (getModifiedFilepaths allPrFiles) approvals infoLog warnLog)
     = Return true →
   value (check reviewersConfig (getModifiedFilepaths (take n allPrFiles)) approvals
            infoLog warnLog)
     = Return true)
  ∧ (patterns_compile RegExp overrides →
     checkOverride RegExp overrides (getModifiedFilepaths allPrFiles) (getCommiters commits)
       = Return true →
     checkOverride RegExp overrides (getModifiedFilepaths (take n allPrFiles))
       (getCommiters (take m commits))
       = Return true).
Proof.
  assert (∀ file, file ∈ getModifiedFilepaths (take n allPrFiles) →
                  file ∈ getModifiedFilepaths allPrFiles) as Hfiles.
  { unfold getModifiedFilepaths. intros file. rewrite fmap_take. apply subseteq_take. }
  split.
  - by apply check_true_fewer_files.
  - intros Hcompile. apply checkOverride_true_smaller; [done.. |].
    unfold getCommiters. intros committer. rewrite fmap_take. apply subseteq_take.
Qed.

Lemma truncated_responses_stay_approved_example :
  value (check Scenario.policy_free
           (getModifiedFilepaths (take 1 [File.mk "docs/a.md"; File.mk "docs/b.md"])) []
           core_info core_warning)
  = Return true
  ∧ checkOverride anchored_literal [Override.docs_only]
      (getModifiedFilepaths (take 1 [File.mk "docs/a.md"; File.mk "docs/b.md"]))
      (getCommiters (take 0 [Commit.mk None]))
    = Return true.
Proof.
  destruct (truncated_responses_stay_approved anchored_literal Scenario.policy_free
              [Override.docs_only] [File.mk "docs/a.md"; File.mk "docs/b.md"]
              [Commit.mk None] [] core_info core_warning 1 0) as [Hcheck Hoverride].
  split; [by apply Hcheck |]. apply Hoverride; [|reflexivity].
  intros crit patterns pattern Hcrit Hpatterns Hpattern.
  apply list_elem_of_singleton in Hcrit as ->.
  injection Hpatterns as <-. apply list_elem_of_singleton in Hpattern as ->. by eexists.
Defined.

(** ** More about [run] *)

Lemma omap_none {A B} (f : A → option B) (l : list A) :
  (∀ x, x ∈ l → f x = None) → omap f l = [].
Proof.
  induction l as [|x l IH]; intros Hnone; [done |]. simpl.
  rewrite (Hnone x (list_elem_of_here _ _)). apply IH. intros y Hy. apply Hnone. by right.
Qed.

(** [check], as [run] calls it, only ever logs information and warnings. *)
Lemma check_log_quiet
    (reviewersConfig : Reviewers.t) (modifiedFilepaths approvals : list string) :
  reviews_posted (log (check reviewersConfig modifiedFilepaths approvals
                         core_info core_warning)) = []
  ∧ failures_reported (log (check reviewersConfig modifiedFilepaths approvals
                              core_info core_warning)) = [].
Proof.
  split; apply omap_none; intros entry Hin; unfold check in Hin;
    by apply for_in_rules_log in Hin as [(? & _ & _ & ->)|[[? ->] _]].
Qed.

(** X16. What [run] does with its verdict. The log of [check] comes first.
    With [post-review] on, [run] posts exactly one review, approving or
    requesting changes according to the verdict, and fails nothing; with it
    off, [run] posts nothing and fails the action exactly when the verdict
    is a rejection. When [check] or [checkOverride] throws, [run] has posted
    no review by then. *)
Theorem run_acts_on_verdict
    (RegExp : string → option (string → bool)) (postReview : bool)
    (reviewersConfig : Reviewers.t) (modifiedFilepaths approvals : list string)
    (committers : list (option string)) :
  (∃ rest,
     log (run RegExp postReview reviewersConfig modifiedFilepaths approvals committers)
     = log (check reviewersConfig modifiedFilepaths approvals core_info core_warning) ++ rest)
  ∧ reviews_posted
      (log (run RegExp postReview reviewersConfig modifiedFilepaths approvals committers))
    = match value (run RegExp postReview reviewersConfig modifiedFilepaths approvals committers)
      with
      | Return true =>
          if postReview then [("APPROVE", "All review requirements have been met")%string]
          else []
      | Return false =>
          if postReview then [("REQUEST_CHANGES", "Missing required reviewers")%string]
          else []
      | Throw _ => []
      end
  ∧ failures_reported
      (log (run RegExp postReview reviewersConfig modifiedFilepaths approvals committers))
    = match value (run RegExp postReview reviewersConfig modifiedFilepaths approvals committers)
      with
      | Return false => if postReview then [] else ["Missing required approvals."%string]
      | _ => []
      end.
Proof.
  destruct (check_log_quiet reviewersConfig modifiedFilepaths approvals) as [Hreviews Hfailures].
  unfold run. unfold reviews_posted, failures_reported in *.
  destruct (check reviewersConfig modifiedFilepaths approvals core_info core_warning)
    as [checked [[]|e]]; simpl in *.
  - unfold mbind at 1 3 5, Eff_bind at 1 3 5. simpl.
    split_and!; [by eexists | |]; rewrite omap_app; [rewrite Hreviews | rewrite Hfailures];
      by destruct postReview.
  - unfold mbind at 1 4 7, Eff_bind at 1 4 7. simpl.
    destruct (Reviewers.overrides reviewersConfig) as [overrides|]; simpl.
    + destruct (checkOverride RegExp overrides modifiedFilepaths committers) as [[]|e]; simpl;
        (split_and!; [by eexists | |]); rewrite omap_app;
        [rewrite Hreviews | rewrite Hfailures | rewrite Hreviews | rewrite Hfailures
         | rewrite Hreviews | rewrite Hfailures]; by destruct postReview.
    + split_and!; [by eexists | |]; rewrite omap_app;
        [rewrite Hreviews | rewrite Hfailures]; by destruct postReview.
  - unfold mbind, Eff_bind. simpl. split_and!; [exists []; by rewrite app_nil_r | done..].
Qed.

(** X17. A change without modified files is approved by [run] under every
    policy: neither a rule naming a missing team nor a malformed pattern
    comes into play. *)
Theorem run_empty_change
    (RegExp : string → option (string → bool)) (postReview : bool)
    (reviewersConfig : Reviewers.t) (approvals : list string)
    (committers : list (option string)) :
  value (run RegExp postReview reviewersConfig [] approvals committers) = Return true
  ∧ failures_reported (log (run RegExp postReview reviewersConfig [] approvals committers)) = []
  ∧ reviews_posted (log (run RegExp postReview reviewersConfig [] approvals committers))
    = if postReview then [("APPROVE", "All review requirements have been met")%string] else [].
Proof. unfold run. rewrite check_no_files. by destruct postReview. Qed.

(** ** More about [getApprovals] *)

Lemma latest_state_app (login : string) (prReviews later : list Review.t) :
  latest_state login (prReviews ++ later)
  = match latest_state login later with
    | Some state => Some state
    | None => latest_state login prReviews
    end.
Proof.
  unfold latest_state. rewrite filter_app, last_app.
  by destruct (last (filter (significant login) later)).
Qed.

(** X18. [getApprovals] never lists a login without cause: each login it
    returns is the user of a review of the list whose state is
    ["APPROVED"]. *)
Theorem getApprovals_sound (prReviews : list Review.t) (login : string) :
  login ∈ getApprovals prReviews →
  ∃ review,
    review ∈ prReviews ∧
    Review.user review = Some (User.mk login) ∧
    Review.state review = "APPROVED"%string.
Proof.
  rewrite getApprovals_elem_of. unfold latest_state.
  destruct (last (filter (significant login) prReviews)) as [review|] eqn:Hlast;
    [|by intros [_ ?]].
  intros [_ [= Hstate]]. exists review.
  apply last_Some in Hlast as [l Hl].
  assert (review ∈ filter (significant login) prReviews) as Hin.
  { rewrite Hl. apply elem_of_app. right. left. }
  apply list_elem_of_filter in Hin as [[Huser _] Hin]. by split_and!.
Qed.

Lemma getApprovals_sound_example :
  ∃ review,
    review ∈ [Review.mk (Some (User.mk "bob")) "APPROVED";
              Review.mk (Some (User.mk "bob")) "COMMENTED"] ∧
    Review.user review = Some (User.mk "bob") ∧
    Review.state review = "APPROVED"%string.
Proof.
  apply (getApprovals_sound _ "bob"%string). vm_compute. apply list_elem_of_here.
Defined.

(** X19. Reviews that come later decide alone for the users they concern:
    after further reviews, a user (of any login but ["__proto__"], which is
    never recorded) is among the approvals according to the most recent of
    the further reviews of theirs that is not a comment, and according to
    the earlier reviews when there is none. *)
Theorem getApprovals_app (prReviews later : list Review.t) (login : string) :
  login ≠ "__proto__"%string →
  login ∈ getApprovals (prReviews ++ later)
  ↔ match latest_state login later with
    | Some state => state = "APPROVED"%string
    | None => login ∈ getApprovals prReviews
    end.
Proof.
  intros Hproto. rewrite getApprovals_elem_of, latest_state_app.
  destruct (latest_state login later).
  - split; [intros [_ ?]; congruence | intros ->; by split].
  - rewrite getApprovals_elem_of. split; [by intros [_ ?] | by intros ?].
Qed.

Lemma getApprovals_app_example :
  "bob"%string ∈ getApprovals ([Review.mk (Some (User.mk "bob")) "CHANGES_REQUESTED"]
                               ++ [Review.mk (Some (User.mk "alice")) "COMMENTED";
                                   Review.mk (Some (User.mk "bob")) "APPROVED"])
  ↔ match latest_state "bob" [Review.mk (Some (User.mk "alice")) "COMMENTED";
                              Review.mk (Some (User.mk "bob")) "APPROVED"] with
    | Some state => state = "APPROVED"%string
    | None => "bob"%string ∈ getApprovals [Review.mk (Some (User.mk "bob")) "CHANGES_REQUESTED"]
    end.
Proof. apply getApprovals_app. discriminate. Defined.
